(** * Trip planner: the generation / validation / fallback pipeline

    A shallow embedding of [main.py]: the weather client
    [get_weather_forecast], the itinerary generator [generate_itinerary] and
    the two operations [plan_trip] and [evaluate_plan], together with the
    pieces of the Python runtime they rest on (string methods, the JSON
    reader, the validation of the declared models).

    Conventions of the model.
    - A Python [str] is the [string] of its UTF-8 bytes.
    - A Python [float] is the exact rational value of the number it was read
      from ([Q]); rounding and the non-finite values are not modelled.
    - Exceptions are values of [exn]; only subclasses of [Exception] occur
      (cancellation and interpreter signals are not modelled).
    - Calls that leave the process (HTTP, the generation service, [print])
      are recorded in a trace of [event]s, and what the outside answers is
      read from a [host] record. *)

From Stdlib Require Import String Ascii List ZArith NArith QArith Bool Lia.
Import ListNotations.
Local Close Scope Q_scope.
Local Open Scope string_scope.
Set Warnings "-register-all".

(* ================================================================== *)
(** ** Python strings *)
(* ================================================================== *)

Module Py.

(** The double quote character and the one-character string made of it. *)
Definition DQ : ascii := "034"%char.
Definition dq : string := String DQ EmptyString.

(** [qq s] is [s] with every apostrophe turned into a double quote; it lets
    JSON texts be written legibly as Rocq string literals. *)
Fixpoint qq (s : string) : string :=
  match s with
  | EmptyString => EmptyString
  | String c r => String (if Ascii.eqb c "'" then DQ else c) (qq r)
  end.

Definition code (c : ascii) : N := N_of_ascii c.

Fixpoint rev_onto (s acc : string) : string :=
  match s with
  | EmptyString => acc
  | String c r => rev_onto r (String c acc)
  end.

Definition rev (s : string) : string := rev_onto s EmptyString.

(** *** [str.strip()]

    The characters Python strips are those of [str.isspace]: U+0009-000D,
    U+001C-0020, U+0085, U+00A0, U+1680, U+2000-200A, U+2028, U+2029,
    U+202F, U+205F and U+3000, here by their UTF-8 encodings. *)

Definition is_space1 (c : ascii) : bool :=
  let n := code c in
  ((9 <=? n) && (n <=? 13) || (28 <=? n) && (n <=? 32))%N.

Definition is_space2 (c1 c2 : ascii) : bool :=
  ((code c1 =? 194) && ((code c2 =? 133) || (code c2 =? 160)))%N.

Definition is_space3 (c1 c2 c3 : ascii) : bool :=
  let a := code c1 in
  let b := code c2 in
  let c := code c3 in
  ((a =? 225) && (b =? 154) && (c =? 128)
   || (a =? 226) && (b =? 128)
        && ((128 <=? c) && (c <=? 138) || (c =? 168) || (c =? 169) || (c =? 175))
   || (a =? 226) && (b =? 129) && (c =? 159)
   || (a =? 227) && (b =? 128) && (c =? 128))%N.

Fixpoint lstrip (s : string) : string :=
  match s with
  | EmptyString => s
  | String c1 r1 =>
      if is_space1 c1 then lstrip r1
      else
        match r1 with
        | EmptyString => s
        | String c2 r2 =>
            if is_space2 c1 c2 then lstrip r2
            else
              match r2 with
              | EmptyString => s
              | String c3 r3 => if is_space3 c1 c2 c3 then lstrip r3 else s
              end
        end
  end.

(** The same scan on the reversed text, where the bytes of a character come
    last byte first. *)
Fixpoint lstrip_rev (s : string) : string :=
  match s with
  | EmptyString => s
  | String c1 r1 =>
      if is_space1 c1 then lstrip_rev r1
      else
        match r1 with
        | EmptyString => s
        | String c2 r2 =>
            if is_space2 c2 c1 then lstrip_rev r2
            else
              match r2 with
              | EmptyString => s
              | String c3 r3 => if is_space3 c3 c2 c1 then lstrip_rev r3 else s
              end
        end
  end.

Definition rstrip (s : string) : string := rev (lstrip_rev (rev s)).

Definition strip (s : string) : string := rstrip (lstrip s).

(** *** [str.replace(old, new)]

    Occurrences are taken from left to right and do not overlap:
    [skip] counts the characters of a matched occurrence still to pass. *)

Fixpoint replace_from (old new : string) (skip : nat) (s : string) : string :=
  match s with
  | EmptyString => EmptyString
  | String c r =>
      match skip with
      | S k => replace_from old new k r
      | O =>
          if prefix old s
          then new ++ replace_from old new (String.length old - 1) r
          else String c (replace_from old new 0 r)
      end
  end.

Fixpoint interleave (new s : string) : string :=
  match s with
  | EmptyString => new
  | String c r => new ++ String c (interleave new r)
  end.

Definition replace (old new s : string) : string :=
  match old with
  | EmptyString => interleave new s
  | _ => replace_from old new 0 s
  end.

(** *** [sub in s] *)

Fixpoint contains (sub s : string) : bool :=
  prefix sub s
  || match s with
     | EmptyString => false
     | String _ r => contains sub r
     end.

(** *** [str.capitalize()]

    First character to upper case, the others to lower case.  Only the
    letters of ASCII are mapped; other bytes are kept.  For a text of
    ASCII characters this is what Python returns; Python also maps the
    letters outside ASCII, which this definition leaves as they are. *)

Definition upper (c : ascii) : ascii :=
  let n := code c in
  if ((97 <=? n) && (n <=? 122))%N then ascii_of_N (n - 32) else c.

Definition lower (c : ascii) : ascii :=
  let n := code c in
  if ((65 <=? n) && (n <=? 90))%N then ascii_of_N (n + 32) else c.

Fixpoint map_chars (f : ascii -> ascii) (s : string) : string :=
  match s with
  | EmptyString => EmptyString
  | String c r => String (f c) (map_chars f r)
  end.

Definition capitalize (s : string) : string :=
  match s with
  | EmptyString => EmptyString
  | String c r => String (upper c) (map_chars lower r)
  end.

(** *** [repr] of a [str]

    Single quotes, unless the text has an apostrophe and no double quote.
    The backslash, the chosen quote, and the control characters are
    escaped; other bytes are kept. *)

Definition hex_digit (n : N) : ascii :=
  if (n <? 10)%N then ascii_of_N (48 + n) else ascii_of_N (87 + n).

Definition hex2 (n : N) : string :=
  String (hex_digit (n / 16)) (String (hex_digit (n mod 16)) EmptyString).

Fixpoint has_char (c : ascii) (s : string) : bool :=
  match s with
  | EmptyString => false
  | String d r => Ascii.eqb c d || has_char c r
  end.

Definition repr_char (quote c : ascii) : string :=
  let n := code c in
  if Ascii.eqb c "\" then "\\"
  else if Ascii.eqb c quote then String "\" (String c EmptyString)
  else if (n =? 9)%N then "\t"
  else if (n =? 10)%N then "\n"
  else if (n =? 13)%N then "\r"
  else if ((n <? 32) || (n =? 127))%N then "\x" ++ hex2 n
  else String c EmptyString.

Fixpoint repr_body (quote : ascii) (s : string) : string :=
  match s with
  | EmptyString => EmptyString
  | String c r => repr_char quote c ++ repr_body quote r
  end.

Definition repr_str (s : string) : string :=
  let quote := if has_char "'" s && negb (has_char DQ s) then DQ else "'"%char in
  String quote (repr_body quote s ++ String quote EmptyString).

(** Decimal text of an integer, as [str(int)] gives it. *)
Fixpoint digits_of_pos (fuel : nat) (n : N) (acc : string) : string :=
  match fuel with
  | O => acc
  | S f =>
      let acc' := String (ascii_of_N (48 + n mod 10)) acc in
      if (n / 10 =? 0)%N then acc' else digits_of_pos f (n / 10) acc'
  end.

Definition str_of_Z (z : Z) : string :=
  let n := Z.to_N (Z.abs z) in
  let ds := digits_of_pos (S (N.to_nat (N.log2 n))) n EmptyString in
  if (z <? 0)%Z then String "-" ds else ds.

End Py.

(* ================================================================== *)
(** ** JSON documents *)
(* ================================================================== *)

Module Json.

(** One reader stands for both readers the program uses (the one behind
    [model_validate_json] and the one behind [response.json()]): the
    grammar of RFC 8259, a later member of an object overriding an earlier
    one of the same key.  On a text of that grammar the readers agree with
    it, up to their limits on nesting and on the length of a number, which
    are not modelled.  Neither is what the reader of the standard library
    accepts beyond the grammar (the literals of non-finite numbers, a
    byte-order mark, escaped lone surrogates), nor its failures other than
    a decoding error (bytes that are not UTF-8, too deep a nesting). *)

(** A decoded document.  An object keeps its members in the order of the
    text, duplicates included; [obj_get] reads it as the dictionary built
    from them (a later member overrides an earlier one of the same key). *)
Inductive json : Type :=
| JNull
| JBool (b : bool)
| JInt (z : Z)
| JFloat (q : Q)
| JString (s : string)
| JArray (items : list json)
| JObject (members : list (string * json)).

Fixpoint obj_get (k : string) (members : list (string * json)) : option json :=
  match members with
  | [] => None
  | (k', v) :: rest =>
      match obj_get k rest with
      | Some later => Some later
      | None => if String.eqb k k' then Some v else None
      end
  end.

(** *** Lexical elements (RFC 8259) *)

Definition is_ws (c : ascii) : bool :=
  let n := Py.code c in
  ((n =? 32) || (n =? 9) || (n =? 10) || (n =? 13))%N.

Fixpoint skip_ws (s : string) : string :=
  match s with
  | String c r => if is_ws c then skip_ws r else s
  | EmptyString => s
  end.

Definition is_digit (c : ascii) : bool :=
  let n := Py.code c in ((48 <=? n) && (n <=? 57))%N.

Definition digit_val (c : ascii) : Z := Z.of_N (Py.code c) - 48.

(** Longest run of digits at the head of the text: its value read after
    [acc], how many digits it has, and what follows it. *)
Fixpoint span_digits (acc : Z) (count : nat) (s : string) : Z * nat * string :=
  match s with
  | String c r =>
      if is_digit c then span_digits (10 * acc + digit_val c) (S count) r
      else (acc, count, s)
  | EmptyString => (acc, count, s)
  end.

Definition hex_val (c : ascii) : option N :=
  let n := Py.code c in
  if ((48 <=? n) && (n <=? 57))%N then Some (n - 48)%N
  else if ((97 <=? n) && (n <=? 102))%N then Some (n - 87)%N
  else if ((65 <=? n) && (n <=? 70))%N then Some (n - 55)%N
  else None.

Definition hex4 (a b c d : ascii) : option N :=
  match hex_val a, hex_val b, hex_val c, hex_val d with
  | Some x, Some y, Some z, Some w => Some (((x * 16 + y) * 16 + z) * 16 + w)%N
  | _, _, _, _ => None
  end.

(** UTF-8 bytes of a code point. *)
Definition utf8 (cp : N) : string :=
  (if cp <? 128 then String (ascii_of_N cp) EmptyString
   else if cp <? 2048 then
     String (ascii_of_N (192 + cp / 64))
       (String (ascii_of_N (128 + cp mod 64)) EmptyString)
   else if cp <? 65536 then
     String (ascii_of_N (224 + cp / 4096))
       (String (ascii_of_N (128 + (cp / 64) mod 64))
          (String (ascii_of_N (128 + cp mod 64)) EmptyString))
   else
     String (ascii_of_N (240 + cp / 262144))
       (String (ascii_of_N (128 + (cp / 4096) mod 64))
          (String (ascii_of_N (128 + (cp / 64) mod 64))
             (String (ascii_of_N (128 + cp mod 64)) EmptyString))))%N.

Definition is_high_surrogate (cp : N) : bool := ((55296 <=? cp) && (cp <=? 56319))%N.
Definition is_low_surrogate (cp : N) : bool := ((56320 <=? cp) && (cp <=? 57343))%N.

Definition simple_escape (c : ascii) : option ascii :=
  if Ascii.eqb c Py.DQ then Some Py.DQ
  else if Ascii.eqb c "\" then Some "\"%char
  else if Ascii.eqb c "/" then Some "/"%char
  else if Ascii.eqb c "b" then Some "008"%char
  else if Ascii.eqb c "f" then Some "012"%char
  else if Ascii.eqb c "n" then Some "010"%char
  else if Ascii.eqb c "r" then Some "013"%char
  else if Ascii.eqb c "t" then Some "009"%char
  else None.

Definition cons_fst (c : ascii) (p : option (string * string)) : option (string * string) :=
  match p with
  | Some (body, rest) => Some (String c body, rest)
  | None => None
  end.

Definition app_fst (pre : string) (p : option (string * string)) : option (string * string) :=
  match p with
  | Some (body, rest) => Some (pre ++ body, rest)
  | None => None
  end.

(** The text after an opening double quote: the decoded content up to the
    closing quote, and what follows it.  Control characters must be
    escaped; a [\u] escape of a surrogate must be one half of a pair. *)
Fixpoint parse_string_body (s : string) : option (string * string) :=
  match s with
  | EmptyString => None
  | String c r =>
      if Ascii.eqb c Py.DQ then Some (EmptyString, r)
      else if Ascii.eqb c "\" then
        match r with
        | EmptyString => None
        | String e r1 =>
            if Ascii.eqb e "u" then
              match r1 with
              | String h1 (String h2 (String h3 (String h4 r2))) =>
                  match hex4 h1 h2 h3 h4 with
                  | None => None
                  | Some cp =>
                      if is_low_surrogate cp then None
                      else if is_high_surrogate cp then
                        match r2 with
                        | String b1 (String b2 (String l1 (String l2 (String l3 (String l4 r3))))) =>
                            if Ascii.eqb b1 "\" && Ascii.eqb b2 "u" then
                              match hex4 l1 l2 l3 l4 with
                              | None => None
                              | Some lo =>
                                  if is_low_surrogate lo then
                                    app_fst
                                      (utf8 (65536 + (cp - 55296) * 1024 + (lo - 56320))%N)
                                      (parse_string_body r3)
                                  else None
                              end
                            else None
                        | _ => None
                        end
                      else app_fst (utf8 cp) (parse_string_body r2)
                  end
              | _ => None
              end
            else
              match simple_escape e with
              | Some d => cons_fst d (parse_string_body r1)
              | None => None
              end
        end
      else if (Py.code c <? 32)%N then None
      else cons_fst c (parse_string_body r)
  end.

(** *** Numbers *)

Definition pow10 (n : Z) : Z := 10 ^ n.

(** The rational [m * 10^e]. *)
Definition decimal (m e : Z) : Q :=
  if (0 <=? e)%Z then inject_Z (m * pow10 e)
  else Qmake m (Z.to_pos (pow10 (- e))).

Definition parse_exponent (s : string) : option (Z * string) :=
  match s with
  | String c r =>
      if Ascii.eqb c "e" || Ascii.eqb c "E" then
        let '(neg, r1) :=
          match r with
          | String sg r' =>
              if Ascii.eqb sg "-" then (true, r')
              else if Ascii.eqb sg "+" then (false, r')
              else (false, r)
          | EmptyString => (false, r)
          end in
        let '(v, n, r2) := span_digits 0 0 r1 in
        match n with
        | O => None
        | S _ => Some (if neg then (- v)%Z else v, r2)
        end
      else Some (0%Z, s)
  | EmptyString => Some (0%Z, s)
  end.

Definition has_exponent (s : string) : bool :=
  match s with
  | String c _ => Ascii.eqb c "e" || Ascii.eqb c "E"
  | EmptyString => false
  end.

(** An optional minus sign; an integer part, which is a lone zero or
    digits not starting with zero; an optional fraction (a dot and one or
    more digits); an optional exponent (e or E, an optional sign, one or
    more digits).  A literal with neither fraction nor exponent is an
    integer, any other a float. *)
Definition parse_number (s : string) : option (json * string) :=
  let '(neg, s1) :=
    match s with
    | String c r => if Ascii.eqb c "-" then (true, r) else (false, s)
    | EmptyString => (false, s)
    end in
  let sign (z : Z) := if neg then (- z)%Z else z in
  let int_part :=
    match s1 with
    | String c r =>
        if Ascii.eqb c "0" then Some (0%Z, r)
        else if is_digit c then
          let '(v, _, r') := span_digits 0 0 s1 in Some (v, r')
        else None
    | EmptyString => None
    end in
  match int_part with
  | None => None
  | Some (iv, s2) =>
      match s2 with
      | String "." s3 =>
          let '(mv, n, s4) := span_digits iv 0 s3 in
          match n with
          | O => None
          | S _ =>
              match parse_exponent s4 with
              | None => None
              | Some (e, s5) => Some (JFloat (decimal (sign mv) (e - Z.of_nat n)), s5)
              end
          end
      | _ =>
          if has_exponent s2 then
            match parse_exponent s2 with
            | None => None
            | Some (e, s5) => Some (JFloat (decimal (sign iv) e), s5)
            end
          else Some (JInt (sign iv), s2)
      end
  end.

(** *** Values

    Recursive descent, with [fuel] bounding the number of nested calls. *)

(** [expect c s] is what follows [c] when [s] starts with it. *)
Definition expect (c : ascii) (s : string) : option string :=
  match s with
  | String d r => if Ascii.eqb d c then Some r else None
  | EmptyString => None
  end.

Definition parse_literal (s : string) : option (json * string) :=
  if prefix "true" s then Some (JBool true, substring 4 (String.length s - 4) s)
  else if prefix "false" s then Some (JBool false, substring 5 (String.length s - 5) s)
  else if prefix "null" s then Some (JNull, substring 4 (String.length s - 4) s)
  else parse_number s.

Fixpoint parse_value (fuel : nat) (s : string) : option (json * string) :=
  match fuel with
  | O => None
  | S f =>
      let s := skip_ws s in
      match expect Py.DQ s with
      | Some r =>
          match parse_string_body r with
          | Some (str, r') => Some (JString str, r')
          | None => None
          end
      | None =>
          match expect "[" s with
          | Some r =>
              match expect "]" (skip_ws r) with
              | Some r' => Some (JArray [], r')
              | None =>
                  match parse_elements f r with
                  | Some (items, r') => Some (JArray items, r')
                  | None => None
                  end
              end
          | None =>
              match expect "{" s with
              | Some r =>
                  match expect "}" (skip_ws r) with
                  | Some r' => Some (JObject [], r')
                  | None =>
                      match parse_members f r with
                      | Some (members, r') => Some (JObject members, r')
                      | None => None
                      end
                  end
              | None => parse_literal s
              end
          end
      end
  end

with parse_elements (fuel : nat) (s : string) : option (list json * string) :=
  match fuel with
  | O => None
  | S f =>
      match parse_value f s with
      | None => None
      | Some (v, r) =>
          let r := skip_ws r in
          match expect "," r with
          | Some r' =>
              match parse_elements f r' with
              | Some (vs, r'') => Some (v :: vs, r'')
              | None => None
              end
          | None =>
              match expect "]" r with
              | Some r' => Some ([v], r')
              | None => None
              end
          end
      end
  end

with parse_members (fuel : nat) (s : string) : option (list (string * json) * string) :=
  match fuel with
  | O => None
  | S f =>
      match expect Py.DQ (skip_ws s) with
      | None => None
      | Some r =>
          match parse_string_body r with
          | None => None
          | Some (k, r1) =>
              match expect ":" (skip_ws r1) with
              | None => None
              | Some r2 =>
                  match parse_value f r2 with
                  | None => None
                  | Some (v, r3) =>
                      let r3 := skip_ws r3 in
                      match expect "," r3 with
                      | Some r4 =>
                          match parse_members f r4 with
                          | Some (ms, r5) => Some ((k, v) :: ms, r5)
                          | None => None
                          end
                      | None =>
                          match expect "}" r3 with
                          | Some r4 => Some ([(k, v)], r4)
                          | None => None
                          end
                      end
                  end
              end
          end
      end
  end.

(** A whole text is one value, blanks allowed around it.  The fuel is more
    than the calls any text of that length can nest. *)
Definition loads (s : string) : option json :=
  match parse_value (2 * String.length s + 2) s with
  | Some (v, rest) =>
      match skip_ws rest with
      | EmptyString => Some v
      | _ => None
      end
  | None => None
  end.

(** *** Writing strings

    The quote, the backslash and the control characters are escaped, other
    bytes are written as they are. *)
Definition escape_char (c : ascii) : string :=
  let n := Py.code c in
  if Ascii.eqb c Py.DQ then String "\" Py.dq
  else if Ascii.eqb c "\" then "\\"
  else if (n =? 8)%N then "\b"
  else if (n =? 12)%N then "\f"
  else if (n =? 10)%N then "\n"
  else if (n =? 13)%N then "\r"
  else if (n =? 9)%N then "\t"
  else if (n <? 32)%N then "\u00" ++ Py.hex2 n
  else String c EmptyString.

Fixpoint escape (s : string) : string :=
  match s with
  | EmptyString => EmptyString
  | String c r => escape_char c ++ escape r
  end.

Definition dumps_str (s : string) : string :=
  String Py.DQ (escape s ++ Py.dq).

End Json.

Import Py Json.

(* ================================================================== *)
(** ** Exceptions and effects *)
(* ================================================================== *)

(** The exceptions that can occur.  The message texts of exceptions raised
    by libraries are indicative, not verbatim. *)
Inductive exn : Type :=
| HTTPException (status_code : Z) (detail : string)
| RequestError (message : string)
| HTTPStatusError (status_code : Z)
| InvalidURL (message : string)
| JSONDecodeError (message : string)
| ValidationError (title message : string)
| KeyError (key : string)
| IndexError (message : string)
| TypeError (message : string)
| AttributeError (message : string)
| ProviderError (message : string).

(** [str(e)], as an f-string renders it. *)
Definition str_of_exn (e : exn) : string :=
  match e with
  | HTTPException c d => str_of_Z c ++ ": " ++ d
  | RequestError m => m
  | HTTPStatusError c => "HTTP status " ++ str_of_Z c
  | InvalidURL m => m
  | JSONDecodeError m => m
  | ValidationError t m => "1 validation error for " ++ t ++ ": " ++ m
  | KeyError k => k
  | IndexError m => m
  | TypeError m => m
  | AttributeError m => m
  | ProviderError m => m
  end.

Inductive result (A : Type) : Type :=
| Ok (a : A)
| Raise (e : exn).
Arguments Ok {A} a.
Arguments Raise {A} e.

(** A request to the generation service. *)
Record gen_request : Type := {
  api_key : string;
  model_name : string;
  system_instruction : string;
  response_mime_type : option string;
  contents : string
}.

(** What the process did to the outside, in order. *)
Inductive event : Type :=
| HttpGet (url : string)
| Generate (request : gen_request)
| Print (line : string).

(** A computation: the events it performed and how it ended. *)
Definition M (A : Type) : Type := (list event * result A)%type.

Definition ret {A} (a : A) : M A := ([], Ok a).
Definition raise {A} (e : exn) : M A := ([], Raise e).
Definition emit (ev : event) : M unit := ([ev], Ok tt).
Definition lift {A} (r : result A) : M A := ([], r).

Definition bind {A B} (m : M A) (k : A -> M B) : M B :=
  match m with
  | (t, Ok a) => let '(t', r) := k a in ((t ++ t')%list, r)
  | (t, Raise e) => (t, Raise e)
  end.

Notation "x <- m ;; k" := (bind m (fun x => k))
  (at level 61, m at next level, right associativity).
Notation "m ;;; k" := (bind m (fun _ => k))
  (at level 61, right associativity).

(** [try: body except ...: handler]: [handler e] is [None] when no clause
    catches [e]. *)
Definition try_except {A} (body : M A) (handler : exn -> option (M A)) : M A :=
  match body with
  | (t, Raise e) =>
      match handler e with
      | Some h => let '(t', r) := h in ((t ++ t')%list, r)
      | None => body
      end
  | _ => body
  end.

Definition trace {A} (m : M A) : list event := fst m.
Definition outcome {A} (m : M A) : result A := snd m.

(* ================================================================== *)
(** ** The outside world *)
(* ================================================================== *)

(** What [client.get] does with a URL: the provider answers; or the request
    fails on the way, which the client reports with an [httpx.RequestError];
    or the client refuses the URL before any request is made, raising
    [httpx.InvalidURL], which is not an [httpx.RequestError] (it does so
    for a URL with an ASCII control character and for an over-long one). *)
Inductive http_outcome : Type :=
| Response (status_code : Z) (body : string)
| TransportFailure (message : string)
| Refused (message : string).

Inductive gen_outcome : Type :=
| Generated (text : string)
| GenerationFailed (e : exn).

(** The process environment, the two remote services, and the text the
    interpreter prints for a float. *)
Record host : Type := {
  environ : string -> option string;
  http_get : string -> http_outcome;
  generate_content : gen_request -> gen_outcome;
  float_repr : Q -> string
}.

Definition getenv (h : host) (name default : string) : string :=
  match environ h name with
  | Some v => v
  | None => default
  end.

(** [await client.get(url)] *)
Definition client_get (h : host) (url : string) : M (Z * string) :=
  match http_get h url with
  | Response status body => emit (HttpGet url) ;;; ret (status, body)
  | TransportFailure m => emit (HttpGet url) ;;; raise (RequestError m)
  | Refused m => raise (InvalidURL m)
  end.

(** [response.raise_for_status()]: any status outside 2xx raises. *)
Definition raise_for_status (response : Z * string) : M unit :=
  let status := fst response in
  if ((200 <=? status) && (status <=? 299))%Z then ret tt
  else raise (HTTPStatusError status).

(** [response.json()], with the reader of [Json]: a body outside the
    grammar raises a decoding error. *)
Definition response_json (response : Z * string) : M json :=
  match loads (snd response) with
  | Some v => ret v
  | None => raise (JSONDecodeError "Expecting value")
  end.

(** [await model.generate_content_async(prompt)] followed by [.text] *)
Definition generate_content_async (h : host) (request : gen_request) : M string :=
  emit (Generate request) ;;;
  match generate_content h request with
  | Generated text => ret text
  | GenerationFailed e => raise e
  end.

Definition print (line : string) : M unit := emit (Print line).

(** *** Subscripts on decoded JSON *)

Definition type_name (v : json) : string :=
  match v with
  | JNull => "NoneType"
  | JBool _ => "bool"
  | JInt _ => "int"
  | JFloat _ => "float"
  | JString _ => "str"
  | JArray _ => "list"
  | JObject _ => "dict"
  end.

Definition not_subscriptable (v : json) : exn :=
  TypeError (String "'" (type_name v) ++ "' object is not subscriptable").

(** [v[key]] for a string key. *)
Definition getitem (v : json) (key : string) : result json :=
  match v with
  | JObject members =>
      match obj_get key members with
      | Some x => Ok x
      | None => Raise (KeyError (repr_str key))
      end
  | JArray _ => Raise (TypeError "list indices must be integers or slices, not str")
  | JString _ => Raise (TypeError "string indices must be integers, not 'str'")
  | _ => Raise (not_subscriptable v)
  end.

Definition is_continuation (c : ascii) : bool :=
  ((128 <=? code c) && (code c <? 192))%N.

Fixpoint take_continuation (s : string) : string :=
  match s with
  | String c r => if is_continuation c then String c (take_continuation r) else EmptyString
  | EmptyString => EmptyString
  end.

(** [v[0]] *)
Definition getitem0 (v : json) : result json :=
  match v with
  | JArray (x :: _) => Ok x
  | JArray [] => Raise (IndexError "list index out of range")
  | JObject _ => Raise (KeyError "0")
  | JString (String c r) => Ok (JString (String c (take_continuation r)))
  | JString EmptyString => Raise (IndexError "string index out of range")
  | _ => Raise (not_subscriptable v)
  end.

(** [v.capitalize()] *)
Definition call_capitalize (v : json) : result string :=
  match v with
  | JString s => Ok (capitalize s)
  | _ =>
      Raise (AttributeError
               (String "'" (type_name v) ++ "' object has no attribute 'capitalize'"))
  end.

(* ================================================================== *)
(** ** Configuration and system prompts *)
(* ================================================================== *)

Definition GEMINI_API_KEY (h : host) : string :=
  getenv h "GEMINI_API_KEY" "YOUR_GEMINI_API_KEY".

Definition WEATHER_API_KEY (h : host) : string :=
  getenv h "WEATHER_API_KEY" "YOUR_WEATHER_API_KEY".

Definition AGENT_SYSTEM_PROMPT : string :=
  ("
You are a helpful and concise travel assistant. Your goal is to create a 1-day travel itinerary.
- Be friendly and enthusiastic.
- Keep the itinerary concise and easy to read.
- If the user asks for information you cannot provide (e.g., real-time traffic), politely decline.
- If any external tool or API call fails, inform the user that you couldn't retrieve the information and suggest they check a dedicated service for it. For instance, if the weather API fails, say " ++ dq ++ "I couldn't fetch the weather forecast right now, but you can check a reliable weather website for the latest updates." ++ dq ++ "
- Do not make up or hallucinate information.
- If the user prompt is abusive, illegal, or unsafe, do not respond with a trip plan. Politely say it's inappropriate and decline.

").

Definition JUDGE_SYSTEM_PROMPT : string :=
  "
You are an impartial evaluator. Your task is to assess the quality of an AI-generated travel plan based on a user's prompt and a set of criteria.
Provide a score for each criterion from 1 to 5 (1=Poor, 5=Excellent) and a brief justification for your score.
Finally, provide an overall score and a summary of your evaluation.
Your output must be in JSON format.
".

(* ================================================================== *)
(** ** The declared models and their validation *)
(* ================================================================== *)

Record TripRequest : Type := { prompt : string }.

Record ItineraryItem : Type := {
  time : string;
  activity : string;
  description : string
}.

Record WeatherInfo : Type := {
  forecast : string;
  temperature : Q;
  details : string
}.

Record TripResponse : Type := {
  itinerary : list ItineraryItem;
  weather : option WeatherInfo;
  agent_message : string
}.

Record EvaluationCriterion : Type := {
  criterion : string;
  score : Z;
  justification : string
}.

Record EvaluationResponse : Type := {
  evaluation_summary : string;
  overall_score : Q;
  criteria : list EvaluationCriterion
}.

(** The model built inside [generate_itinerary]. *)
Record ItineraryResponse : Type := { ir_itinerary : list ItineraryItem }.

(** *** Field validators

    Validation is the default (lax) one: a [str] field takes a string only;
    an [int] field takes an integer, a boolean, a float without fractional
    part, or a string that reads as an integer; a [float] field takes any
    number, a boolean, or a string that reads as a number.  Keys a model
    does not declare are ignored.  The first violation found is reported. *)

Definition invalid {A} (title loc msg : string) : result A :=
  Raise (ValidationError title (loc ++ ": " ++ msg)).

Definition rbind {A B} (r : result A) (k : A -> result B) : result B :=
  match r with
  | Ok a => k a
  | Raise e => Raise e
  end.

Notation "x <~ r ;; k" := (rbind r (fun x => k))
  (at level 61, r at next level, right associativity).

Definition all_digits (s : string) : bool :=
  match s with
  | EmptyString => false
  | _ => let '(_, n, rest) := span_digits 0 0 s in
         match rest with EmptyString => true | _ => false end
  end.

Definition str_as_int (s : string) : option Z :=
  let t := strip s in
  let '(neg, ds) :=
    match t with
    | String "-" r => (true, r)
    | String "+" r => (false, r)
    | _ => (false, t)
    end in
  if all_digits ds then
    let '(v, _, _) := span_digits 0 0 ds in
    Some (if neg then (- v)%Z else v)
  else None.

Definition str_as_float (s : string) : option Q :=
  let t := strip s in
  let t' := match t with String "+" r => r | _ => t end in
  match parse_number t' with
  | Some (JInt z, EmptyString) => Some (inject_Z z)
  | Some (JFloat q, EmptyString) => Some q
  | _ => None
  end.

Definition is_integral (q : Q) : bool :=
  (Qnum q mod Zpos (Qden q) =? 0)%Z.

Definition validate_str (title loc : string) (v : json) : result string :=
  match v with
  | JString s => Ok s
  | _ => invalid title loc "Input should be a valid string"
  end.

(** The integer an [int] field reads from a value, if any. *)
Definition as_int (v : json) : option Z :=
  match v with
  | JInt z => Some z
  | JBool b => Some (if b then 1 else 0)%Z
  | JFloat q => if is_integral q then Some (Qnum q / Zpos (Qden q))%Z else None
  | JString s => str_as_int s
  | _ => None
  end.

(** The number a [float] field reads from a value, if any. *)
Definition as_float (v : json) : option Q :=
  match v with
  | JInt z => Some (inject_Z z)
  | JFloat q => Some q
  | JBool b => Some (inject_Z (if b then 1 else 0))
  | JString s => str_as_float s
  | _ => None
  end.

Definition validate_int (title loc : string) (v : json) : result Z :=
  match as_int v with
  | Some z => Ok z
  | None =>
      invalid title loc
        match v with
        | JFloat _ => "Input should be a valid integer, got a number with a fractional part"
        | JString _ => "Input should be a valid integer, unable to parse string as an integer"
        | _ => "Input should be a valid integer"
        end
  end.

Definition validate_float (title loc : string) (v : json) : result Q :=
  match as_float v with
  | Some q => Ok q
  | None =>
      invalid title loc
        match v with
        | JString _ => "Input should be a valid number, unable to parse string as a number"
        | _ => "Input should be a valid number"
        end
  end.

(** [Field(..., ge=lo, le=hi)] on an [int]. *)
Definition validate_int_range (lo hi : Z) (title loc : string) (v : json) : result Z :=
  z <~ validate_int title loc v ;;
  if (z <? lo)%Z then
    invalid title loc ("Input should be greater than or equal to " ++ str_of_Z lo)
  else if (hi <? z)%Z then
    invalid title loc ("Input should be less than or equal to " ++ str_of_Z hi)
  else Ok z.

(** A required field of an object. *)
Definition field {A} (validate : string -> string -> json -> result A)
    (title : string) (members : list (string * json)) (name : string) : result A :=
  match obj_get name members with
  | Some v => validate title name v
  | None => invalid title name "Field required"
  end.

Fixpoint validate_each {A} (validate : json -> result A) (items : list json) : result (list A) :=
  match items with
  | [] => Ok []
  | v :: rest =>
      a <~ validate v ;;
      others <~ validate_each validate rest ;;
      Ok (a :: others)
  end.

(** [List[T]]: a JSON array, each element a valid [T]. *)
Definition validate_list {A} (validate : string -> json -> result A)
    (title loc : string) (v : json) : result (list A) :=
  match v with
  | JArray items => validate_each (validate title) items
  | _ => invalid title loc "Input should be a valid list"
  end.

Definition validate_ItineraryItem (title : string) (v : json) : result ItineraryItem :=
  match v with
  | JObject members =>
      t <~ field validate_str title members "time" ;;
      a <~ field validate_str title members "activity" ;;
      d <~ field validate_str title members "description" ;;
      Ok {| time := t; activity := a; description := d |}
  | _ => invalid title "itinerary" "Input should be an object"
  end.

Definition validate_ItineraryResponse (v : json) : result ItineraryResponse :=
  let title := "ItineraryResponse" in
  match v with
  | JObject members =>
      items <~ field (validate_list validate_ItineraryItem) title members "itinerary" ;;
      Ok {| ir_itinerary := items |}
  | _ => invalid title "" "Input should be an object"
  end.

Definition validate_EvaluationCriterion (title : string) (v : json) : result EvaluationCriterion :=
  match v with
  | JObject members =>
      c <~ field validate_str title members "criterion" ;;
      s <~ field (validate_int_range 1 5) title members "score" ;;
      j <~ field validate_str title members "justification" ;;
      Ok {| criterion := c; score := s; justification := j |}
  | _ => invalid title "criteria" "Input should be an object"
  end.

Definition validate_EvaluationResponse (v : json) : result EvaluationResponse :=
  let title := "EvaluationResponse" in
  match v with
  | JObject members =>
      s <~ field validate_str title members "evaluation_summary" ;;
      o <~ field validate_float title members "overall_score" ;;
      cs <~ field (validate_list validate_EvaluationCriterion) title members "criteria" ;;
      Ok {| evaluation_summary := s; overall_score := o; criteria := cs |}
  | _ => invalid title "" "Input should be an object"
  end.

(** [Model.model_validate_json(text)] *)
Definition model_validate_json {A} (title : string) (validate : json -> result A)
    (text : string) : result A :=
  match loads text with
  | Some v => validate v
  | None => invalid title "" "Invalid JSON"
  end.

Definition ItineraryResponse_model_validate_json : string -> result ItineraryResponse :=
  model_validate_json "ItineraryResponse" validate_ItineraryResponse.

Definition EvaluationResponse_model_validate_json : string -> result EvaluationResponse :=
  model_validate_json "EvaluationResponse" validate_EvaluationResponse.

(** [WeatherInfo(forecast=f, temperature=t, details=d)] on decoded values;
    [d] is already a [str]. *)
Definition make_WeatherInfo (f t : json) (d : string) : result WeatherInfo :=
  let title := "WeatherInfo" in
  f' <~ validate_str title "forecast" f ;;
  t' <~ validate_float title "temperature" t ;;
  Ok {| forecast := f'; temperature := t'; details := d |}.

(** *** How the models print *)

Definition repr_ItineraryItem (i : ItineraryItem) : string :=
  "ItineraryItem(time=" ++ repr_str (time i)
  ++ ", activity=" ++ repr_str (activity i)
  ++ ", description=" ++ repr_str (description i) ++ ")".

Definition repr_itinerary (items : list ItineraryItem) : string :=
  "[" ++ String.concat ", " (map repr_ItineraryItem items) ++ "]".

Definition str_weather (h : host) (w : option WeatherInfo) : string :=
  match w with
  | None => "None"
  | Some i =>
      "forecast=" ++ repr_str (forecast i)
      ++ " temperature=" ++ float_repr h (temperature i)
      ++ " details=" ++ repr_str (details i)
  end.

(* ================================================================== *)
(** ** API clients *)
(* ================================================================== *)

(** The clauses of [except (httpx.RequestError, httpx.HTTPStatusError)]. *)
Definition weather_handler (e : exn) : option (M (option WeatherInfo)) :=
  match e with
  | RequestError _ | HTTPStatusError _ =>
      Some (print ("Weather API error: " ++ str_of_exn e) ;;; ret None)
  | _ => None
  end.

Definition weather_url (h : host) (city : string) : string :=
  "http://api.openweathermap.org/data/2.5/weather?q=" ++ city
  ++ "&appid=" ++ WEATHER_API_KEY h ++ "&units=metric".

Definition get_weather_forecast (h : host) (city : string) : M (option WeatherInfo) :=
  if String.eqb (WEATHER_API_KEY h) "YOUR_WEATHER_API_KEY" then ret None
  else
    let url := weather_url h city in
    try_except
      (response <- client_get h url ;;
       raise_for_status response ;;;
       data <- response_json response ;;
       f <- lift (w <~ getitem data "weather" ;; w0 <~ getitem0 w ;; getitem w0 "main") ;;
       t <- lift (m <~ getitem data "main" ;; getitem m "temp") ;;
       d <- lift (w <~ getitem data "weather" ;; w0 <~ getitem0 w ;;
                  x <~ getitem w0 "description" ;; call_capitalize x) ;;
       info <- lift (make_WeatherInfo f t d) ;;
       ret (Some info))
      weather_handler.

(** The default of the [city] parameter. *)
Definition default_city : string := "Tokyo".

Definition FALLBACK_ITINERARY : list ItineraryItem :=
  [ {| time := "9:00 AM"; activity := "Morning Exploration";
       description := "Could not generate specific activity. Start your day by exploring the area around your accommodation." |};
    {| time := "1:00 PM"; activity := "Lunch";
       description := "Enjoy a local meal." |};
    {| time := "3:00 PM"; activity := "Afternoon Activity";
       description := "Engage in a popular local activity or visit a landmark." |};
    {| time := "7:00 PM"; activity := "Dinner";
       description := "Have dinner at a well-regarded local restaurant." |} ].

Definition full_prompt (prompt : string) : string :=
  qq "
    Generate a 1-day itinerary based on the following request: '" ++ prompt ++ qq "'.
    Return the response as a JSON object in the following format:
    {
        'itinerary': [
            { 'time': '9:00 AM', 'activity': '...', 'description': '...' },
            { 'time': '11:00 AM', 'activity': '...', 'description': '...' }
        ]
    }
    ".

Definition itinerary_request (h : host) (prompt : string) : gen_request :=
  {| api_key := GEMINI_API_KEY h;
     model_name := "gemini-1.5-flash";
     system_instruction := AGENT_SYSTEM_PROMPT;
     response_mime_type := None;
     contents := full_prompt prompt |}.

(** [response.text.strip().replace('```json', '').replace('```', '')] *)
Definition clean_response (text : string) : string :=
  replace "```" "" (replace "```json" "" (strip text)).

Definition generate_itinerary (h : host) (prompt : string) : M (list ItineraryItem) :=
  if String.eqb (GEMINI_API_KEY h) "YOUR_GEMINI_API_KEY" then
    raise (HTTPException 500 "Gemini API key not configured.")
  else
    try_except
      (text <- generate_content_async h (itinerary_request h prompt) ;;
       let cleaned_response := clean_response text in
       parsed <- lift (ItineraryResponse_model_validate_json cleaned_response) ;;
       ret (ir_itinerary parsed))
      (fun e =>
         Some (print ("Error calling Gemini API: " ++ str_of_exn e) ;;;
               ret FALLBACK_ITINERARY)).

(* ================================================================== *)
(** ** The two operations *)
(* ================================================================== *)

Definition LEAD_SENTENCE : string := "Here is your personalized 1-day trip plan!".

Definition WEATHER_APOLOGY : string :=
  " I couldn't fetch the weather forecast right now, but you can check a reliable weather website for the latest updates.".

Definition plan_trip (h : host) (request : TripRequest) : M TripResponse :=
  itinerary <- generate_itinerary h (prompt request) ;;
  weather <- get_weather_forecast h default_city ;;
  let agent_message := LEAD_SENTENCE in
  let agent_message :=
    match weather with
    | None => agent_message ++ WEATHER_APOLOGY
    | Some _ => agent_message
    end in
  ret {| itinerary := itinerary; weather := weather; agent_message := agent_message |}.

Definition evaluation_prompt (h : host) (request : TripRequest) (response : TripResponse) : string :=
  qq "
        Original User Prompt: '" ++ prompt request ++ qq "'

        Generated AI Response:
        Agent Message: " ++ agent_message response ++ "
        Itinerary: " ++ repr_itinerary (itinerary response) ++ "
        Weather: " ++ str_weather h (weather response) ++ qq "

        Please evaluate the response based on the following criteria:
        1. Relevance
        2. Clarity
        3. Helpfulness
        4. Fallback Handling
        5. Tone

        For each, provide a score from 1 to 5 and a justification.

        Return your response strictly in this JSON format:

        {
        'evaluation_summary': 'string',
        'overall_score': float,
        'criteria': [
            {
            'criterion': 'Relevance',
            'score': 5,
            'justification': 'string'
            },
            ...
        ]
        }
        ".

Definition judge_request (h : host) (request : TripRequest) (response : TripResponse) : gen_request :=
  {| api_key := GEMINI_API_KEY h;
     model_name := "gemini-1.5-flash";
     system_instruction := JUDGE_SYSTEM_PROMPT;
     response_mime_type := Some "application/json";
     contents := evaluation_prompt h request response |}.

Definition evaluate_plan (h : host) (request : TripRequest) (response : TripResponse)
    : M EvaluationResponse :=
  if String.eqb (GEMINI_API_KEY h) "YOUR_GEMINI_API_KEY" then
    raise (HTTPException 500 "Gemini API key not configured for evaluation.")
  else
    try_except
      (text <- generate_content_async h (judge_request h request response) ;;
       lift (EvaluationResponse_model_validate_json text))
      (fun e =>
         Some (raise (HTTPException 500
                        ("Failed to get evaluation from judge: " ++ str_of_exn e)))).

(* ================================================================== *)
(** ** Vocabulary of the properties *)
(* ================================================================== *)

Definition gemini_configured (h : host) : Prop :=
  GEMINI_API_KEY h <> "YOUR_GEMINI_API_KEY".

Definition weather_configured (h : host) : Prop :=
  WEATHER_API_KEY h <> "YOUR_WEATHER_API_KEY".

(** The generation call for [prompt] errors, or what it returns does not
    pass the itinerary schema after cleaning. *)
Definition generation_rejected (h : host) (prompt : string) : Prop :=
  match generate_content h (itinerary_request h prompt) with
  | GenerationFailed _ => True
  | Generated text =>
      forall r, ItineraryResponse_model_validate_json (clean_response text) <> Ok r
  end.

(** The judge call errors, or what it returns does not pass the evaluation
    schema. *)
Definition judge_rejected (h : host) (request : TripRequest) (response : TripResponse) : Prop :=
  match generate_content h (judge_request h request response) with
  | GenerationFailed _ => True
  | Generated text =>
      forall r, EvaluationResponse_model_validate_json text <> Ok r
  end.

Definition is_HTTPException (e : exn) : bool :=
  match e with
  | HTTPException _ _ => true
  | _ => false
  end.

(** How the detail of a judge failure starts. *)
Definition JUDGE_FAILURE : string := "Failed to get evaluation from judge: ".

(** The five criteria the judge is asked to score. *)
Definition RUBRIC : list string :=
  ["Relevance"; "Clarity"; "Helpfulness"; "Fallback Handling"; "Tone"].

Definition score_in_range (c : EvaluationCriterion) : Prop :=
  (1 <= score c <= 5)%Z.

(** What the specification promises of an evaluation. *)
Definition rubric_complete (r : EvaluationResponse) : Prop :=
  (forall name, In name (map criterion (criteria r)) <-> In name RUBRIC)
  /\ Forall score_in_range (criteria r)
  /\ criteria r <> []
  /\ (1 <= overall_score r /\ overall_score r <= 5)%Q.

(** Valid rubric JSON: a text that passes the evaluation schema, as the
    evaluation [r], names exactly the five criteria of the rubric, and
    gives an overall score between 1 and 5. *)
Definition valid_rubric_json (text : string) (r : EvaluationResponse) : Prop :=
  EvaluationResponse_model_validate_json text = Ok r
  /\ (forall name, In name (map criterion (criteria r)) <-> In name RUBRIC)
  /\ (1 <= overall_score r /\ overall_score r <= 5)%Q.

(** A host given by its two credentials and by one fixed answer of each
    remote service. *)
Definition fixed_host (gemini_key weather_key : option string)
    (gen : gen_outcome) (http : http_outcome) : host :=
  {| environ := fun name =>
       if String.eqb name "GEMINI_API_KEY" then gemini_key
       else if String.eqb name "WEATHER_API_KEY" then weather_key
       else None;
     http_get := fun _ => http;
     generate_content := fun _ => gen;
     float_repr := fun q => str_of_Z (Qnum q) ++ "/" ++ str_of_Z (Zpos (Qden q)) |}.

(** *** Writing an itinerary

    The compact JSON text of the model, its members in the order of their
    declaration. *)

Definition dumps_ItineraryItem (i : ItineraryItem) : string :=
  "{" ++ dumps_str "time" ++ ":" ++ dumps_str (time i)
  ++ "," ++ dumps_str "activity" ++ ":" ++ dumps_str (activity i)
  ++ "," ++ dumps_str "description" ++ ":" ++ dumps_str (description i) ++ "}".

Definition model_dump_json (r : ItineraryResponse) : string :=
  "{" ++ dumps_str "itinerary" ++ ":["
  ++ String.concat "," (map dumps_ItineraryItem (ir_itinerary r)) ++ "]}".

(** The document an itinerary item is written as. *)
Definition json_of_ItineraryItem (i : ItineraryItem) : json :=
  JObject [("time", JString (time i));
           ("activity", JString (activity i));
           ("description", JString (description i))].

(** The gate in front of the itinerary: cleaning, then validation. *)
Definition validate_itinerary_text (text : string) : result ItineraryResponse :=
  ItineraryResponse_model_validate_json (clean_response text).

Definition FENCE : string := "```".

(** How much of a fence has just been read: no backtick, one, two, or a
    whole fence somewhere before. *)
Inductive fence_state : Type := Fence0 | Fence1 | Fence2 | FenceFound.

Definition fence_step (st : fence_state) (c : ascii) : fence_state :=
  match st with
  | FenceFound => FenceFound
  | Fence0 => if Ascii.eqb c "`" then Fence1 else Fence0
  | Fence1 => if Ascii.eqb c "`" then Fence2 else Fence0
  | Fence2 => if Ascii.eqb c "`" then FenceFound else Fence0
  end.

Fixpoint fence_run (st : fence_state) (s : string) : fence_state :=
  match s with
  | EmptyString => st
  | String c r => fence_run (fence_step st c) r
  end.

Definition fence_found (st : fence_state) : bool :=
  match st with
  | FenceFound => true
  | _ => false
  end.

Definition fence_free (i : ItineraryItem) : Prop :=
  contains FENCE (time i) = false
  /\ contains FENCE (activity i) = false
  /\ contains FENCE (description i) = false.

(** A document that lacks a field the itinerary schema requires. *)
Definition item_lacks_field (v : json) : Prop :=
  exists members,
    v = JObject members
    /\ (obj_get "time" members = None
        \/ obj_get "activity" members = None
        \/ obj_get "description" members = None).

Definition itinerary_lacks_field (v : json) : Prop :=
  exists members,
    v = JObject members
    /\ (obj_get "itinerary" members = None
        \/ exists items,
             obj_get "itinerary" members = Some (JArray items)
             /\ Exists item_lacks_field items).

(** A document that lacks a field the evaluation schema requires, or holds
    a score outside 1..5. *)
Definition criterion_lacks_field (v : json) : Prop :=
  exists members,
    v = JObject members
    /\ (obj_get "criterion" members = None
        \/ obj_get "score" members = None
        \/ obj_get "justification" members = None).

Definition criterion_out_of_range (v : json) : Prop :=
  exists members sv z,
    v = JObject members
    /\ obj_get "score" members = Some sv
    /\ as_int sv = Some z
    /\ (z < 1 \/ 5 < z)%Z.

Definition evaluation_defective (v : json) : Prop :=
  exists members,
    v = JObject members
    /\ (obj_get "evaluation_summary" members = None
        \/ obj_get "overall_score" members = None
        \/ obj_get "criteria" members = None
        \/ exists items,
             obj_get "criteria" members = Some (JArray items)
             /\ Exists (fun c => criterion_lacks_field c \/ criterion_out_of_range c) items).

(** *** Concrete hosts and inputs *)

Definition EMPTY_REQUEST : TripRequest := {| prompt := "" |}.

Definition TOKYO_REQUEST : TripRequest := {| prompt := "Plan a 1-day trip in Tokyo" |}.

(** Every credential set; generation down; the weather provider unreachable. *)
Definition host_all_down : host :=
  fixed_host (Some "g-key") (Some "w-key")
    (GenerationFailed (ProviderError "503 service unavailable"))
    (TransportFailure "connection refused").

(** No credential at all in the environment. *)
Definition host_no_credentials : host :=
  fixed_host None None
    (GenerationFailed (ProviderError "503 service unavailable"))
    (TransportFailure "connection refused").

(** Generation answers a schema-valid document with an empty array; the
    weather credential is not set. *)
Definition host_empty_itinerary : host :=
  fixed_host (Some "g-key") None
    (Generated (qq "{'itinerary': []}"))
    (TransportFailure "connection refused").

(** The weather provider answers 200 with a JSON body that has no
    [weather] member. *)
Definition host_odd_weather_body : host :=
  fixed_host (Some "g-key") (Some "w-key")
    (GenerationFailed (ProviderError "503 service unavailable"))
    (Response 200 (qq "{'cod': 200, 'message': 'ok'}")).

(** A healthy weather provider, with generation healthy or down. *)
Definition SUNNY_BODY : string :=
  qq "{'weather': [{'main': 'Clear', 'description': 'clear sky'}], 'main': {'temp': 28}}".

Definition host_sunny : host :=
  fixed_host (Some "g-key") (Some "w-key")
    (Generated (qq "{'itinerary': [{'time': '9:00 AM', 'activity': 'Visit park', 'description': 'Walk around and relax.'}]}"))
    (Response 200 SUNNY_BODY).

Definition host_sunny_generation_down : host :=
  fixed_host (Some "g-key") (Some "w-key")
    (GenerationFailed (ProviderError "503 service unavailable"))
    (Response 200 SUNNY_BODY).

Definition SAMPLE_RESPONSE : TripResponse :=
  {| itinerary :=
       [ {| time := "9:00 AM"; activity := "Visit park";
            description := "Walk around and relax." |} ];
     weather := None;
     agent_message := LEAD_SENTENCE ++ WEATHER_APOLOGY |}.

(** A valid evaluation, and the same inside a markdown fence. *)
Definition PLAIN_EVALUATION : string :=
  qq "{'evaluation_summary': 'Good plan.', 'overall_score': 4.5, 'criteria': [{'criterion': 'Relevance', 'score': 5, 'justification': 'On topic.'}, {'criterion': 'Clarity', 'score': 4, 'justification': 'Readable.'}, {'criterion': 'Helpfulness', 'score': 4, 'justification': 'Useful.'}, {'criterion': 'Fallback Handling', 'score': 5, 'justification': 'Explains the missing weather.'}, {'criterion': 'Tone', 'score': 5, 'justification': 'Friendly.'}]}".

Definition NEWLINE : string := String "010" EmptyString.

Definition FENCED_EVALUATION : string :=
  "```json" ++ NEWLINE ++ PLAIN_EVALUATION ++ NEWLINE ++ "```".

Definition host_judge_fenced : host :=
  fixed_host (Some "g-key") None (Generated FENCED_EVALUATION)
    (TransportFailure "connection refused").

Definition host_judge_plain : host :=
  fixed_host (Some "g-key") None (Generated PLAIN_EVALUATION)
    (TransportFailure "connection refused").

(** The judge answers text that is not JSON. *)
Definition host_judge_prose : host :=
  fixed_host (Some "g-key") None (Generated "I would rate this plan highly.")
    (TransportFailure "connection refused").

(** An itinerary whose description holds a markdown fence. *)
Definition FENCED_ITEM : ItineraryItem :=
  {| time := "9:00 AM"; activity := "Write notes";
     description := "Use ```text``` blocks in your travel journal." |}.

Definition PLAIN_ITEM : ItineraryItem :=
  {| time := "9:00 AM"; activity := "Visit park";
     description := "Walk around and relax." |}.

(** Texts the gates must reject. *)
Definition ITEM_WITHOUT_DESCRIPTION : string :=
  qq "{'itinerary': [{'time': '9:00 AM', 'activity': 'Visit park'}]}".

Definition SCORE_SIX : string :=
  qq "{'evaluation_summary': 'ok', 'overall_score': 4, 'criteria': [{'criterion': 'Tone', 'score': 6, 'justification': 'Too kind.'}]}".

(* ================================================================== *)
(** ** Further vocabulary *)
(* ================================================================== *)


Definition is_Generate (ev : event) : bool :=
  match ev with
  | Generate _ => true
  | _ => false
  end.

Definition is_HttpGet (ev : event) : bool :=
  match ev with
  | HttpGet _ => true
  | _ => false
  end.

Definition is_Print (ev : event) : bool :=
  match ev with
  | Print _ => true
  | _ => false
  end.

(** A fence state goes with the text still to read when the backticks
    just written and those the text starts with do not make a fence. *)
Definition fence_compatible (st : fence_state) (s : string) : Prop :=
  match st with
  | Fence0 => True
  | Fence1 => prefix "``" s = false
  | Fence2 => prefix "`" s = false
  | FenceFound => False
  end.

(** Generation answers a valid itinerary inside a json fence. *)
Definition PLAIN_ITINERARY : string :=
  qq "{'itinerary': [{'time': '9:00 AM', 'activity': 'Visit park', 'description': 'Walk around and relax.'}, {'time': '1:00 PM', 'activity': 'Ramen', 'description': 'Lunch near the station.'}]}".

Definition host_fenced_itinerary : host :=
  fixed_host (Some "g-key") None
    (Generated ("```json" ++ NEWLINE ++ PLAIN_ITINERARY ++ NEWLINE ++ "```"))
    (TransportFailure "connection refused").

(** The weather provider answers 404. *)
Definition host_weather_not_found : host :=
  fixed_host (Some "g-key") (Some "w-key")
    (GenerationFailed (ProviderError "503 service unavailable"))
    (Response 404 (qq "{'cod': '404', 'message': 'city not found'}")).

(** The client refuses the URL of the weather lookup. *)
Definition host_url_refused : host :=
  fixed_host (Some "g-key") (Some "w-key")
    (GenerationFailed (ProviderError "503 service unavailable"))
    (Refused "Invalid non-printable ASCII character in URL").

(* ================================================================== *)
(** ** Reasoning about computations *)
(* ================================================================== *)

Lemma outcome_bind_ok {A B} (m : M A) (k : A -> M B) (b : B) :
  outcome (bind m k) = Ok b ->
  exists a, outcome m = Ok a /\ outcome (k a) = Ok b.
Proof.
  destruct m as [t [a|e]]; simpl.
  - destruct (k a) as [t' r] eqn:E. simpl. intros ->. exists a. rewrite E. auto.
  - discriminate.
Qed.

Lemma outcome_bind_raise {A B} (m : M A) (k : A -> M B) (e : exn) :
  outcome (bind m k) = Raise e ->
  outcome m = Raise e \/ exists a, outcome m = Ok a /\ outcome (k a) = Raise e.
Proof.
  destruct m as [t [a|e']]; simpl.
  - destruct (k a) as [t' r] eqn:E. simpl. intros ->. right. exists a. rewrite E. auto.
  - intros [= ->]. auto.
Qed.

Lemma outcome_bind_step {A B} (m : M A) (k : A -> M B) (a : A) :
  outcome m = Ok a -> outcome (bind m k) = outcome (k a).
Proof.
  destruct m as [t [a'|e]]; simpl; intros [= ->].
  destruct (k a) as [t' r]. reflexivity.
Qed.

Lemma trace_bind {A B} (m : M A) (k : A -> M B) :
  trace (bind m k) =
  (trace m ++ match outcome m with Ok a => trace (k a) | Raise _ => [] end)%list.
Proof.
  destruct m as [t [a|e]]; simpl.
  - destruct (k a) as [t' r]. reflexivity.
  - now rewrite app_nil_r.
Qed.

Lemma outcome_lift_raise {A} (r : result A) (e : exn) :
  outcome (lift r) = Raise e -> r = Raise e.
Proof. exact (fun H => H). Qed.

Lemma getenv_missing (h : host) (name default : string) :
  environ h name = None -> getenv h name default = default.
Proof. unfold getenv. now intros ->. Qed.

(** *** The itinerary generator *)

Lemma generate_itinerary_unconfigured (h : host) (p : string) :
  GEMINI_API_KEY h = "YOUR_GEMINI_API_KEY" ->
  generate_itinerary h p = ([], Raise (HTTPException 500 "Gemini API key not configured.")).
Proof.
  intros E. unfold generate_itinerary. rewrite E. reflexivity.
Qed.

Lemma generate_itinerary_configured (h : host) (p : string) :
  gemini_configured h ->
  outcome (generate_itinerary h p) =
  Ok match generate_content h (itinerary_request h p) with
     | GenerationFailed _ => FALLBACK_ITINERARY
     | Generated text =>
         match ItineraryResponse_model_validate_json (clean_response text) with
         | Ok parsed => ir_itinerary parsed
         | Raise _ => FALLBACK_ITINERARY
         end
     end.
Proof.
  intros C. unfold generate_itinerary.
  destruct (String.eqb_spec (GEMINI_API_KEY h) "YOUR_GEMINI_API_KEY") as [E|_];
    [contradiction|].
  unfold generate_content_async.
  destruct (generate_content h (itinerary_request h p)) as [text|e]; [|reflexivity].
  destruct (ItineraryResponse_model_validate_json (clean_response text)) as [parsed|e] eqn:V;
    simpl; rewrite V; reflexivity.
Qed.

Lemma generate_itinerary_rejected (h : host) (p : string) :
  gemini_configured h -> generation_rejected h p ->
  outcome (generate_itinerary h p) = Ok FALLBACK_ITINERARY.
Proof.
  intros C R. rewrite generate_itinerary_configured by assumption.
  unfold generation_rejected in R.
  destruct (generate_content h (itinerary_request h p)) as [text|e]; [|reflexivity].
  destruct (ItineraryResponse_model_validate_json (clean_response text)) as [parsed|e] eqn:V;
    [|reflexivity].
  now elim (R parsed).
Qed.

(** *** The weather lookup *)

Lemma get_weather_forecast_unconfigured (h : host) (city : string) :
  WEATHER_API_KEY h = "YOUR_WEATHER_API_KEY" ->
  get_weather_forecast h city = ([], Ok None).
Proof.
  intros E. unfold get_weather_forecast. rewrite E. reflexivity.
Qed.

Lemma getitem_not_http (v : json) (k : string) (e : exn) :
  getitem v k = Raise e -> is_HTTPException e = false.
Proof.
  destruct v; simpl; try (intros [= <-]; reflexivity).
  destruct (obj_get k members); [discriminate|]. now intros [= <-].
Qed.

Lemma getitem0_not_http (v : json) (e : exn) :
  getitem0 v = Raise e -> is_HTTPException e = false.
Proof.
  destruct v as [| | | |s|items|]; simpl; try (intros [= <-]; reflexivity).
  - destruct s; [|discriminate]. now intros [= <-].
  - destruct items; [|discriminate]. now intros [= <-].
Qed.

Lemma call_capitalize_not_http (v : json) (e : exn) :
  call_capitalize v = Raise e -> is_HTTPException e = false.
Proof. destruct v; simpl; try discriminate; now intros [= <-]. Qed.

Lemma make_WeatherInfo_not_http (f t : json) (d : string) (e : exn) :
  make_WeatherInfo f t d = Raise e -> is_HTTPException e = false.
Proof.
  unfold make_WeatherInfo, validate_str, validate_float, invalid.
  destruct f; simpl; try (intros [= <-]; reflexivity).
  destruct (as_float t); simpl; [discriminate|]. now intros [= <-].
Qed.

Lemma rbind_raise {A B} (r : result A) (k : A -> result B) (e : exn) :
  rbind r k = Raise e -> r = Raise e \/ exists a, r = Ok a /\ k a = Raise e.
Proof. destruct r; simpl; [right; eauto | intros [= ->]; auto]. Qed.

Create HintDb weather.

#[local] Hint Resolve getitem_not_http getitem0_not_http call_capitalize_not_http
  make_WeatherInfo_not_http : weather.

Ltac split_raise H :=
  repeat match type of H with
  | outcome (bind _ _) = Raise _ =>
      apply outcome_bind_raise in H; destruct H as [H | (? & _ & H)]
  | outcome (lift _) = Raise _ => apply outcome_lift_raise in H
  | rbind _ _ = Raise _ =>
      apply rbind_raise in H; destruct H as [H | (? & _ & H)]
  end.

(** The weather lookup never ends in an [HTTPException]. *)
Lemma get_weather_forecast_not_http (h : host) (city : string) (e : exn) :
  outcome (get_weather_forecast h city) = Raise e -> is_HTTPException e = false.
Proof.
  unfold get_weather_forecast.
  destruct (String.eqb _ _); [discriminate|].
  unfold try_except.
  match goal with |- context [match ?b with _ => _ end] => destruct b as [t [a|e']] eqn:B end.
  - discriminate.
  - assert (Hb : outcome (t, @Raise (option WeatherInfo) e') = Raise e') by reflexivity.
    rewrite <- B in Hb. clear B.
    destruct (weather_handler e') as [k|] eqn:Hk.
    + unfold weather_handler in Hk.
      destruct e'; try discriminate; injection Hk as <-; discriminate.
    + simpl. intros [= <-].
      assert (He : weather_handler e' = None) by exact Hk. clear Hk.
      split_raise Hb; eauto with weather.
      * unfold client_get in Hb.
        destruct (http_get h _); [discriminate Hb| |];
          injection Hb as <-; try reflexivity; discriminate.
      * unfold raise_for_status in Hb.
        destruct (_ && _)%bool; [discriminate|]. injection Hb as <-. discriminate.
      * unfold response_json in Hb. destruct (loads _); [discriminate|].
        now injection Hb as <-.
      * discriminate.
Qed.

(** The failures the lookup does absorb: a missing credential, a transport
    failure, and a status outside 2xx all end in [None]. *)
Lemma weather_failures_become_absent (h : host) (city : string) :
  WEATHER_API_KEY h = "YOUR_WEATHER_API_KEY"
  \/ (exists m, http_get h (weather_url h city) = TransportFailure m)
  \/ (exists status body,
        http_get h (weather_url h city) = Response status body
        /\ (status < 200 \/ 299 < status)%Z) ->
  outcome (get_weather_forecast h city) = Ok None.
Proof.
  intros [E | H].
  - now rewrite (get_weather_forecast_unconfigured h city E).
  - unfold get_weather_forecast.
    destruct (String.eqb _ _); [reflexivity|].
    unfold client_get.
    destruct H as [(m & ->) | (status & body & -> & R)]; [reflexivity|].
    assert (B : ((200 <=? status) && (status <=? 299))%Z = false).
    { apply andb_false_iff. destruct R; [left | right]; apply Z.leb_gt; lia. }
    unfold raise_for_status, bind, emit, ret. cbn [fst]. rewrite B. reflexivity.
Qed.

(** *** The planning operation *)

Lemma plan_trip_inv (h : host) (request : TripRequest) (r : TripResponse) :
  outcome (plan_trip h request) = Ok r ->
  exists items w,
    outcome (generate_itinerary h (prompt request)) = Ok items
    /\ outcome (get_weather_forecast h default_city) = Ok w
    /\ r = {| itinerary := items; weather := w;
              agent_message :=
                match w with
                | None => LEAD_SENTENCE ++ WEATHER_APOLOGY
                | Some _ => LEAD_SENTENCE
                end |}.
Proof.
  unfold plan_trip. intros H.
  apply outcome_bind_ok in H as (items & Hi & H).
  apply outcome_bind_ok in H as (w & Hw & H).
  exists items, w. repeat split; auto.
  unfold ret, outcome in H. simpl in H. injection H as <-. destruct w; reflexivity.
Qed.

Lemma plan_trip_ok (h : host) (request : TripRequest)
    (items : list ItineraryItem) (w : option WeatherInfo) :
  outcome (generate_itinerary h (prompt request)) = Ok items ->
  outcome (get_weather_forecast h default_city) = Ok w ->
  outcome (plan_trip h request) =
  Ok {| itinerary := items; weather := w;
        agent_message :=
          match w with
          | None => LEAD_SENTENCE ++ WEATHER_APOLOGY
          | Some _ => LEAD_SENTENCE
          end |}.
Proof.
  intros Hi Hw. unfold plan_trip.
  rewrite (outcome_bind_step _ _ _ Hi), (outcome_bind_step _ _ _ Hw).
  destruct w; reflexivity.
Qed.

Lemma weather_depends_on_provider_only (h1 h2 : host) (city : string) :
  environ h1 "WEATHER_API_KEY" = environ h2 "WEATHER_API_KEY" ->
  (forall url, http_get h1 url = http_get h2 url) ->
  get_weather_forecast h1 city = get_weather_forecast h2 city.
Proof.
  intros Hk Hg. unfold get_weather_forecast, weather_url, WEATHER_API_KEY, getenv, client_get.
  rewrite Hk. destruct (String.eqb _ _); [reflexivity|].
  rewrite Hg. reflexivity.
Qed.

(** C7.  A missing generation credential makes [plan_trip] fail with the
    [HTTPException] "Gemini API key not configured." before anything is
    called or printed (so with no fallback itinerary); with the credential
    set, [plan_trip] never ends in an [HTTPException], so an upstream
    failure is never reported that way.  A missing weather credential makes
    [get_weather_forecast] return [None] with no call to the provider. *)
Theorem missing_credentials (h : host) (request : TripRequest) (city : string) :
  (GEMINI_API_KEY h = "YOUR_GEMINI_API_KEY" ->
   plan_trip h request =
   ([], Raise (HTTPException 500 "Gemini API key not configured.")))
  /\ (gemini_configured h ->
      forall e, outcome (plan_trip h request) = Raise e -> is_HTTPException e = false)
  /\ (WEATHER_API_KEY h = "YOUR_WEATHER_API_KEY" ->
      get_weather_forecast h city = ([], Ok None)).
Proof.
  split; [|split].
  - intros E. unfold plan_trip.
    rewrite (generate_itinerary_unconfigured h _ E). reflexivity.
  - intros C e H. unfold plan_trip in H.
    apply outcome_bind_raise in H as [H | (items & _ & H)].
    + rewrite generate_itinerary_configured in H by assumption. discriminate.
    + apply outcome_bind_raise in H as [H | (w & _ & H)].
      * now apply get_weather_forecast_not_http in H.
      * discriminate.
  - apply get_weather_forecast_unconfigured.
Qed.

Lemma missing_credentials_witness :
  plan_trip host_no_credentials TOKYO_REQUEST =
  ([], Raise (HTTPException 500 "Gemini API key not configured."))
  /\ (forall e, outcome (plan_trip host_all_down TOKYO_REQUEST) = Raise e ->
      is_HTTPException e = false)
  /\ get_weather_forecast host_no_credentials "Tokyo" = ([], Ok None).
Proof.
  split; [|split].
  - apply (proj1 (missing_credentials host_no_credentials TOKYO_REQUEST "Tokyo")).
    reflexivity.
  - apply (proj1 (proj2 (missing_credentials host_all_down TOKYO_REQUEST "Tokyo"))).
    vm_compute. discriminate.
  - apply (proj2 (proj2 (missing_credentials host_no_credentials TOKYO_REQUEST "Tokyo"))).
    reflexivity.
Defined.

(** A request is on record unless the client refuses the URL. *)
Lemma trace_client_get (h : host) (url : string) :
  trace (client_get h url)
  = match http_get h url with
    | Refused _ => []
    | _ => [HttpGet url]
    end.
Proof. unfold client_get, bind, emit. destruct (http_get h url); reflexivity. Qed.

Lemma trace_raise_for_status (response : Z * string) :
  trace (raise_for_status response) = [].
Proof. unfold raise_for_status. destruct (_ && _)%bool; reflexivity. Qed.

Lemma trace_response_json (response : Z * string) :
  trace (response_json response) = [].
Proof. unfold response_json. destruct (loads _); reflexivity. Qed.

Lemma trace_lift {A} (r : result A) : trace (lift r) = [].
Proof. reflexivity. Qed.

Ltac silent_step :=
  rewrite trace_bind;
  rewrite ?trace_raise_for_status, ?trace_response_json, ?trace_lift;
  match goal with
  | |- context [match outcome ?m with _ => _ end] => destruct (outcome m)
  end; [|reflexivity]; cbn [app].

(** What a lookup with the credential set leaves on record: its one
    request, unless the client refuses the URL, then at most one printed
    line, after which the result is [None]. *)
Lemma get_weather_forecast_trace (h : host) (city : string) :
  String.eqb (WEATHER_API_KEY h) "YOUR_WEATHER_API_KEY" = false ->
  exists log,
    trace (get_weather_forecast h city)
    = (match http_get h (weather_url h city) with
       | Refused _ => []
       | _ => [HttpGet (weather_url h city)]
       end ++ log)%list
    /\ (log = []
        \/ exists line,
             log = [Print line] /\ outcome (get_weather_forecast h city) = Ok None).
Proof.
  intros W. unfold get_weather_forecast. rewrite W.
  unfold try_except.
  match goal with |- context [match ?b with _ => _ end] => destruct b as [t r] eqn:B end.
  assert (Ht : trace (t, r)
               = match http_get h (weather_url h city) with
                 | Refused _ => []
                 | _ => [HttpGet (weather_url h city)]
                 end).
  { rewrite <- B. clear B.
    rewrite trace_bind, trace_client_get.
    rewrite <- (app_nil_r (match http_get h (weather_url h city) with
                           | Refused _ => []
                           | _ => [HttpGet (weather_url h city)]
                           end)) at 2.
    f_equal.
    destruct (outcome (client_get h _)); [|reflexivity].
    do 6 silent_step. reflexivity. }
  simpl in Ht. subst t.
  destruct r as [a|e].
  - exists []. split; [now rewrite app_nil_r | now left].
  - destruct (weather_handler e) as [k|] eqn:Hk.
    + unfold weather_handler in Hk.
      destruct e; try discriminate; injection Hk as <-;
        (eexists; split; [reflexivity | right; eexists; split; reflexivity]).
    + exists []. split; [now rewrite app_nil_r | now left].
Qed.

(** An exception that leaves the lookup is one its handler does not
    catch. *)
Lemma get_weather_forecast_uncaught (h : host) (city : string) (e : exn) :
  outcome (get_weather_forecast h city) = Raise e -> weather_handler e = None.
Proof.
  unfold get_weather_forecast.
  destruct (String.eqb _ _); [discriminate|].
  unfold try_except.
  match goal with |- context [match ?b with _ => _ end] => destruct b as [t [a|e']] end.
  - discriminate.
  - destruct (weather_handler e') as [k|] eqn:Hk.
    + unfold weather_handler in Hk.
      destruct e'; try discriminate; injection Hk as <-; discriminate.
    + now intros [= <-].
Qed.

(** C10.  The weather of a planned trip does not depend on the request (nor
    on the generation service): the lookup is made for the default city
    "Tokyo", so two requests handled against the same weather credential
    and the same provider get the same weather, and the only URL ever
    fetched is the one of "Tokyo". *)
Theorem weather_independent_of_request
    (h1 h2 : host) (request1 request2 : TripRequest) (r1 r2 : TripResponse) :
  environ h1 "WEATHER_API_KEY" = environ h2 "WEATHER_API_KEY" ->
  (forall url, http_get h1 url = http_get h2 url) ->
  outcome (plan_trip h1 request1) = Ok r1 ->
  outcome (plan_trip h2 request2) = Ok r2 ->
  weather r1 = weather r2
  /\ outcome (get_weather_forecast h1 "Tokyo") = Ok (weather r1)
  /\ (forall url, In (HttpGet url) (trace (plan_trip h1 request1)) ->
      url = weather_url h1 "Tokyo").
Proof.
  intros Hk Hg H1 H2.
  apply plan_trip_inv in H1 as (i1 & w1 & Hi1 & Hw1 & ->).
  apply plan_trip_inv in H2 as (i2 & w2 & Hi2 & Hw2 & ->).
  simpl. unfold default_city in *.
  pose proof (weather_depends_on_provider_only h1 h2 "Tokyo" Hk Hg) as Hsame.
  split; [congruence|]. split.
  - exact Hw1.
  - intros url Hin. unfold plan_trip in Hin.
    rewrite trace_bind, Hi1, trace_bind in Hin.
    apply in_app_or in Hin as [Hin | Hin].
    + exfalso. revert Hin. unfold generate_itinerary.
      destruct (String.eqb _ _); simpl; [tauto|].
      unfold generate_content_async.
      destruct (generate_content h1 _) as [text|e]; simpl.
      * destruct (ItineraryResponse_model_validate_json _); simpl;
          intuition discriminate.
      * intuition discriminate.
    + apply in_app_or in Hin as [Hin | Hin].
      * unfold default_city in Hin.
        destruct (String.eqb (WEATHER_API_KEY h1) "YOUR_WEATHER_API_KEY") eqn:W.
        -- apply String.eqb_eq in W.
           rewrite (get_weather_forecast_unconfigured h1 "Tokyo" W) in Hin.
           destruct Hin.
        -- destruct (get_weather_forecast_trace h1 "Tokyo" W) as (log & T & L).
           rewrite T in Hin. clear T.
           apply in_app_or in Hin as [Hin | Hin].
           ++ destruct (http_get h1 _); simpl in Hin;
                intuition congruence.
           ++ destruct L as [-> | (line & -> & _)]; simpl in Hin;
                intuition discriminate.
      * unfold default_city in Hin. rewrite Hw1 in Hin. destruct Hin.
Qed.

Lemma weather_independent_of_request_witness :
  exists r1 r2,
    outcome (plan_trip host_sunny TOKYO_REQUEST) = Ok r1
    /\ outcome (plan_trip host_sunny_generation_down EMPTY_REQUEST) = Ok r2
    /\ weather r1 = weather r2
    /\ weather r1 =
       Some {| forecast := "Clear"; temperature := inject_Z 28; details := "Clear sky" |}.
Proof.
  eexists. eexists.
  split; [vm_compute; reflexivity|].
  split; [vm_compute; reflexivity|].
  split; [|reflexivity].
  apply (weather_independent_of_request host_sunny host_sunny_generation_down
           TOKYO_REQUEST EMPTY_REQUEST _ _ eq_refl (fun _ => eq_refl));
    vm_compute; reflexivity.
Defined.

(** C4.  The message of a planned trip holds the weather apology exactly
    when the weather is absent, and is a function of that absence alone:
    the lead sentence, followed by the apology when there is no weather. *)
Theorem apology_iff_weather_absent
    (h : host) (request : TripRequest) (r : TripResponse) :
  outcome (plan_trip h request) = Ok r ->
  (contains WEATHER_APOLOGY (agent_message r) = true <-> weather r = None)
  /\ agent_message r =
     match weather r with
     | None => LEAD_SENTENCE ++ WEATHER_APOLOGY
     | Some _ => LEAD_SENTENCE
     end.
Proof.
  intros H. apply plan_trip_inv in H as (items & w & _ & _ & ->).
  simpl. split; [|reflexivity].
  destruct w as [i|].
  - split; [|discriminate]. vm_compute. discriminate.
  - split; [reflexivity|]. intros _. vm_compute. reflexivity.
Qed.

Lemma apology_iff_weather_absent_witness :
  exists r1 r2,
    outcome (plan_trip host_all_down TOKYO_REQUEST) = Ok r1
    /\ weather r1 = None
    /\ contains WEATHER_APOLOGY (agent_message r1) = true
    /\ outcome (plan_trip host_sunny TOKYO_REQUEST) = Ok r2
    /\ weather r2 <> None
    /\ contains WEATHER_APOLOGY (agent_message r2) = false.
Proof.
  eexists. eexists.
  split; [vm_compute; reflexivity|].
  split; [reflexivity|].
  split.
  { apply (proj1 (apology_iff_weather_absent host_all_down TOKYO_REQUEST _ eq_refl)).
    reflexivity. }
  split; [vm_compute; reflexivity|].
  split; [discriminate|].
  destruct (contains WEATHER_APOLOGY _) eqn:E; [|reflexivity].
  apply (proj1 (apology_iff_weather_absent host_sunny TOKYO_REQUEST _ eq_refl)) in E.
  discriminate E.
Defined.

(** *** The judge *)

Lemma prefix_app (a s : string) : prefix a (a ++ s) = true.
Proof.
  induction a as [|c a IH]; simpl; [now destruct s|].
  destruct (ascii_dec c c); [exact IH | congruence].
Qed.

Lemma evaluate_plan_configured (h : host) (request : TripRequest) (response : TripResponse) :
  gemini_configured h ->
  evaluate_plan h request response =
  ([Generate (judge_request h request response)],
   match generate_content h (judge_request h request response) with
   | GenerationFailed e => Raise (HTTPException 500 (JUDGE_FAILURE ++ str_of_exn e))
   | Generated text =>
       match EvaluationResponse_model_validate_json text with
       | Ok r => Ok r
       | Raise e => Raise (HTTPException 500 (JUDGE_FAILURE ++ str_of_exn e))
       end
   end).
Proof.
  intros C. unfold evaluate_plan.
  destruct (String.eqb_spec (GEMINI_API_KEY h) "YOUR_GEMINI_API_KEY") as [E|_];
    [contradiction|].
  unfold generate_content_async.
  destruct (generate_content h (judge_request h request response)) as [text|e];
    [|reflexivity].
  destruct (EvaluationResponse_model_validate_json text) as [r|e] eqn:V;
    simpl; rewrite V; reflexivity.
Qed.

Lemma evaluate_plan_unconfigured (h : host) (request : TripRequest) (response : TripResponse) :
  GEMINI_API_KEY h = "YOUR_GEMINI_API_KEY" ->
  evaluate_plan h request response =
  ([], Raise (HTTPException 500 "Gemini API key not configured for evaluation.")).
Proof. intros E. unfold evaluate_plan. rewrite E. reflexivity. Qed.

(** C3.  When the judge call errors, or its text does not pass the
    evaluation schema, [evaluate_plan] ends in an [HTTPException] of status
    500, whose detail, with the credential set, is "Failed to get
    evaluation from judge: " followed by the text of the error; it returns
    no [EvaluationResponse] at all. *)
Theorem judge_failure_surfaces
    (h : host) (request : TripRequest) (response : TripResponse) :
  judge_rejected h request response ->
  (exists detail,
     outcome (evaluate_plan h request response) = Raise (HTTPException 500 detail)
     /\ (gemini_configured h -> prefix JUDGE_FAILURE detail = true))
  /\ (forall r, outcome (evaluate_plan h request response) <> Ok r).
Proof.
  intros R.
  pose proof (prefix_app JUDGE_FAILURE) as P.
  destruct (string_dec (GEMINI_API_KEY h) "YOUR_GEMINI_API_KEY") as [E|C].
  - rewrite (evaluate_plan_unconfigured h request response E). simpl. split.
    + eexists. split; [reflexivity|]. intros C. contradiction.
    + discriminate.
  - rewrite (evaluate_plan_configured h request response C). simpl.
    unfold judge_rejected in R.
    destruct (generate_content h (judge_request h request response)) as [text|e].
    + destruct (EvaluationResponse_model_validate_json text) as [r|e] eqn:V.
      * now elim (R r).
      * split; [|discriminate]. eexists. split; [reflexivity|]. intros _. apply P.
    + split; [|discriminate]. eexists. split; [reflexivity|]. intros _. apply P.
Qed.

Lemma judge_failure_surfaces_witness :
  (exists detail,
     outcome (evaluate_plan host_judge_prose TOKYO_REQUEST SAMPLE_RESPONSE)
     = Raise (HTTPException 500 detail)
     /\ (gemini_configured host_judge_prose -> prefix JUDGE_FAILURE detail = true))
  /\ (forall r, outcome (evaluate_plan host_all_down TOKYO_REQUEST SAMPLE_RESPONSE) <> Ok r).
Proof.
  split.
  - refine (proj1 (judge_failure_surfaces host_judge_prose TOKYO_REQUEST SAMPLE_RESPONSE _)).
    unfold judge_rejected. simpl. intros r. vm_compute. discriminate.
  - refine (proj2 (judge_failure_surfaces host_all_down TOKYO_REQUEST SAMPLE_RESPONSE _)).
    unfold judge_rejected. simpl. exact I.
Defined.

(** *** What validation guarantees of an evaluation *)

Lemma validate_int_range_bounds (lo hi : Z) (title loc : string) (v : json) (z : Z) :
  validate_int_range lo hi title loc v = Ok z -> (lo <= z <= hi)%Z.
Proof.
  unfold validate_int_range. destruct (validate_int title loc v) as [z'|e]; simpl;
    [|discriminate].
  destruct (Z.ltb_spec z' lo); [discriminate|].
  destruct (Z.ltb_spec hi z'); [discriminate|].
  intros [= <-]. lia.
Qed.

Lemma validate_EvaluationCriterion_score (title : string) (v : json) (c : EvaluationCriterion) :
  validate_EvaluationCriterion title v = Ok c -> score_in_range c.
Proof.
  unfold validate_EvaluationCriterion. destruct v; try discriminate.
  destruct (field validate_str title members "criterion"); simpl; [|discriminate].
  unfold field at 1.
  destruct (obj_get "score" members) as [sv|]; [|discriminate].
  destruct (validate_int_range 1 5 title "score" sv) as [z|] eqn:V; simpl; [|discriminate].
  destruct (field validate_str title members "justification"); simpl; [|discriminate].
  intros [= <-]. unfold score_in_range. simpl.
  exact (validate_int_range_bounds _ _ _ _ _ _ V).
Qed.

Lemma validate_each_Forall {A} (validate : json -> result A) (P : A -> Prop) :
  (forall v a, validate v = Ok a -> P a) ->
  forall items l, validate_each validate items = Ok l -> Forall P l.
Proof.
  intros HP. induction items as [|v items IH]; simpl; intros l.
  - intros [= <-]. constructor.
  - destruct (validate v) as [a|] eqn:V; simpl; [|discriminate].
    destruct (validate_each validate items) as [l'|]; simpl; [|discriminate].
    intros [= <-]. constructor; eauto.
Qed.

Lemma validate_EvaluationResponse_scores (v : json) (r : EvaluationResponse) :
  validate_EvaluationResponse v = Ok r -> Forall score_in_range (criteria r).
Proof.
  unfold validate_EvaluationResponse. destruct v; try discriminate.
  destruct (field validate_str _ members "evaluation_summary"); simpl; [|discriminate].
  destruct (field validate_float _ members "overall_score"); simpl; [|discriminate].
  unfold field.
  destruct (obj_get "criteria" members) as [cv|]; [|discriminate].
  unfold validate_list. destruct cv; try discriminate.
  destruct (validate_each _ items) as [cs|] eqn:V; simpl; [|discriminate].
  intros [= <-]. simpl.
  eapply validate_each_Forall; [|exact V].
  intros v c. apply validate_EvaluationCriterion_score.
Qed.

(** C6.  When the judge returns valid rubric JSON (a text that passes the
    evaluation schema, names exactly the five criteria of the rubric, and
    gives an overall score between 1 and 5), [evaluate_plan] makes its one
    call and returns the evaluation of that text: its criteria are exactly
    the five of the rubric, each with an integer score between 1 and 5,
    there is at least one of them, and the overall score is between 1 and
    5.  The range of each score is what the schema checks; the names and
    the overall score are those of the text. *)
Theorem valid_rubric_json_is_returned
    (h : host) (request : TripRequest) (response : TripResponse)
    (text : string) (r : EvaluationResponse) :
  gemini_configured h ->
  generate_content h (judge_request h request response) = Generated text ->
  valid_rubric_json text r ->
  evaluate_plan h request response
  = ([Generate (judge_request h request response)], Ok r)
  /\ rubric_complete r.
Proof.
  intros C G (V & N & O). rewrite (evaluate_plan_configured h request response C).
  rewrite G, V. split; [reflexivity|].
  split; [exact N|]. split; [|split; [|exact O]].
  - unfold EvaluationResponse_model_validate_json, model_validate_json in V.
    destruct (loads text) as [v|]; [|discriminate].
    now apply validate_EvaluationResponse_scores in V.
  - intros E. rewrite E in N. apply (N "Tone"). unfold RUBRIC. simpl. tauto.
Qed.

Lemma valid_rubric_json_is_returned_witness :
  exists r,
    valid_rubric_json PLAIN_EVALUATION r
    /\ evaluate_plan host_judge_plain TOKYO_REQUEST SAMPLE_RESPONSE
       = ([Generate (judge_request host_judge_plain TOKYO_REQUEST SAMPLE_RESPONSE)], Ok r)
    /\ rubric_complete r
    /\ map criterion (criteria r) = RUBRIC
    /\ map score (criteria r) = [5; 4; 4; 5; 5]%Z.
Proof.
  assert (X : exists r, valid_rubric_json PLAIN_EVALUATION r).
  { eexists. split; [vm_compute; reflexivity|]. split.
    - intros name. cbn [criteria map criterion]. reflexivity.
    - cbn [overall_score]. split; unfold Qle; simpl; lia. }
  destruct X as (r & V). exists r.
  destruct (valid_rubric_json_is_returned host_judge_plain TOKYO_REQUEST
              SAMPLE_RESPONSE PLAIN_EVALUATION r
              ltac:(vm_compute; discriminate) eq_refl V) as (E & R).
  split; [exact V|]. split; [exact E|]. split; [exact R|].
  destruct V as (V & _). vm_compute in V. injection V as <-.
  split; reflexivity.
Defined.

Lemma prefix_cons (a b : ascii) (s1 s2 : string) :
  prefix (String a s1) (String b s2) = (Ascii.eqb a b && prefix s1 s2)%bool.
Proof.
  change (prefix (String a s1) (String b s2))
    with (match ascii_dec a b with left _ => prefix s1 s2 | right _ => false end).
  destruct (ascii_dec a b) as [->|N].
  - now rewrite Ascii.eqb_refl.
  - apply Ascii.eqb_neq in N. now rewrite N.
Qed.

(** A text that opens with a backtick is not JSON. *)
Lemma loads_backtick (s : string) : loads (String "`" s) = None.
Proof.
  unfold loads.
  replace (2 * String.length (String "`" s) + 2) with (S (2 * String.length s + 3))
    by (simpl; lia).
  reflexivity.
Qed.

(** C9 (as the code has it).  The text of the judge is validated as it is
    returned, with no stripping of markdown fences; the judge is instead
    asked for JSON output ([response_mime_type]).  A text that passes the
    evaluation schema as it stands comes back validated; a text that opens
    with a fence is rejected and surfaces as a failure. *)
Theorem judge_text_is_not_cleaned
    (h : host) (request : TripRequest) (response : TripResponse) (text : string) :
  gemini_configured h ->
  generate_content h (judge_request h request response) = Generated text ->
  (forall r, EvaluationResponse_model_validate_json text = Ok r ->
             outcome (evaluate_plan h request response) = Ok r)
  /\ (prefix FENCE text = true ->
      exists detail,
        outcome (evaluate_plan h request response) = Raise (HTTPException 500 detail)
        /\ prefix JUDGE_FAILURE detail = true)
  /\ trace (evaluate_plan h request response) = [Generate (judge_request h request response)]
  /\ response_mime_type (judge_request h request response) = Some "application/json".
Proof.
  intros C G. rewrite (evaluate_plan_configured h request response C). simpl.
  rewrite G. split; [|split; [|split; reflexivity]].
  - intros r V. now rewrite V.
  - intros F. unfold FENCE in F.
    destruct text as [|c text]; [discriminate|].
    rewrite prefix_cons in F. apply andb_prop in F as [F _].
    apply Ascii.eqb_eq in F as <-.
    unfold EvaluationResponse_model_validate_json, model_validate_json.
    rewrite loads_backtick. unfold invalid.
    eexists. split; [reflexivity|]. apply (prefix_app JUDGE_FAILURE).
Qed.

Lemma judge_text_is_not_cleaned_witness :
  (exists r, outcome (evaluate_plan host_judge_plain TOKYO_REQUEST SAMPLE_RESPONSE) = Ok r)
  /\ (exists detail,
        outcome (evaluate_plan host_judge_fenced TOKYO_REQUEST SAMPLE_RESPONSE)
        = Raise (HTTPException 500 detail)
        /\ prefix JUDGE_FAILURE detail = true).
Proof.
  split.
  - eexists.
    refine (proj1 (judge_text_is_not_cleaned host_judge_plain TOKYO_REQUEST SAMPLE_RESPONSE
                     PLAIN_EVALUATION _ eq_refl) _ _);
      [vm_compute; discriminate | vm_compute; reflexivity].
  - refine (proj1 (proj2 (judge_text_is_not_cleaned host_judge_fenced TOKYO_REQUEST
                            SAMPLE_RESPONSE FENCED_EVALUATION _ eq_refl)) _);
      [vm_compute; discriminate | reflexivity].
Defined.

(** C9 (as stated) fails: a valid evaluation inside a json fence, which the
    cleaning of the itinerary path would unwrap, makes [evaluate_plan]
    fail. *)
Lemma fenced_evaluation_is_rejected :
  gemini_configured host_judge_fenced
  /\ generate_content host_judge_fenced
       (judge_request host_judge_fenced TOKYO_REQUEST SAMPLE_RESPONSE)
     = Generated ("```json" ++ NEWLINE ++ PLAIN_EVALUATION ++ NEWLINE ++ "```")
  /\ (exists r, EvaluationResponse_model_validate_json PLAIN_EVALUATION = Ok r)
  /\ clean_response ("```json" ++ NEWLINE ++ PLAIN_EVALUATION ++ NEWLINE ++ "```")
     = NEWLINE ++ PLAIN_EVALUATION ++ NEWLINE
  /\ (exists detail,
        outcome (evaluate_plan host_judge_fenced TOKYO_REQUEST SAMPLE_RESPONSE)
        = Raise (HTTPException 500 detail)
        /\ prefix JUDGE_FAILURE detail = true)
  /\ (forall r,
        outcome (evaluate_plan host_judge_fenced TOKYO_REQUEST SAMPLE_RESPONSE) <> Ok r).
Proof.
  split; [vm_compute; discriminate|].
  split; [reflexivity|].
  split; [eexists; vm_compute; reflexivity|].
  split; [vm_compute; reflexivity|].
  split; [eexists; split; vm_compute; reflexivity|].
  intros r. vm_compute. discriminate.
Qed.

(** C5.  With the weather credential set, a provider that answers 200 with
    a JSON body lacking the [weather] member makes [get_weather_forecast]
    raise [KeyError]: the exception is none of the two the function
    catches, and it crosses the boundary (and aborts [plan_trip]). *)
Theorem weather_lookup_raises_on_odd_body :
  weather_configured host_odd_weather_body
  /\ http_get host_odd_weather_body (weather_url host_odd_weather_body "Tokyo")
     = Response 200 (qq "{'cod': 200, 'message': 'ok'}")
  /\ get_weather_forecast host_odd_weather_body "Tokyo"
     = ([HttpGet "http://api.openweathermap.org/data/2.5/weather?q=Tokyo&appid=w-key&units=metric"],
        Raise (KeyError "'weather'"))
  /\ weather_handler (KeyError "'weather'") = None
  /\ outcome (plan_trip host_odd_weather_body TOKYO_REQUEST) = Raise (KeyError "'weather'").
Proof.
  split; [vm_compute; discriminate|].
  repeat split; vm_compute; reflexivity.
Qed.

(** C2 (as the code has it).  With the generation credential set, whenever
    the generation call errors or its text does not pass the itinerary
    schema, [generate_itinerary] returns the four fixed entries and raises
    nothing; two such calls with the same prompt give the same sequence.
    Without the credential it raises the "not configured" error instead. *)
Theorem fallback_on_rejection (h1 h2 h3 : host) (p : string) :
  (gemini_configured h1 -> generation_rejected h1 p ->
   gemini_configured h2 -> generation_rejected h2 p ->
   outcome (generate_itinerary h1 p) = Ok FALLBACK_ITINERARY
   /\ outcome (generate_itinerary h2 p) = outcome (generate_itinerary h1 p)
   /\ map (fun i => (time i, activity i)) FALLBACK_ITINERARY
      = [("9:00 AM", "Morning Exploration"); ("1:00 PM", "Lunch");
         ("3:00 PM", "Afternoon Activity"); ("7:00 PM", "Dinner")]
   /\ Forall (fun i => description i <> "") FALLBACK_ITINERARY)
  /\ (GEMINI_API_KEY h3 = "YOUR_GEMINI_API_KEY" ->
      generate_itinerary h3 p =
      ([], Raise (HTTPException 500 "Gemini API key not configured."))).
Proof.
  split.
  - intros C1 R1 C2 R2.
    rewrite (generate_itinerary_rejected h1 p C1 R1).
    rewrite (generate_itinerary_rejected h2 p C2 R2).
    repeat split. repeat constructor; discriminate.
  - apply generate_itinerary_unconfigured.
Qed.

Lemma fallback_on_rejection_witness :
  outcome (generate_itinerary host_all_down "") = Ok FALLBACK_ITINERARY
  /\ outcome (generate_itinerary host_judge_prose "")
     = outcome (generate_itinerary host_all_down "")
  /\ generate_itinerary host_no_credentials ""
     = ([], Raise (HTTPException 500 "Gemini API key not configured.")).
Proof.
  assert (C1 : gemini_configured host_all_down) by (vm_compute; discriminate).
  assert (C2 : gemini_configured host_judge_prose) by (vm_compute; discriminate).
  assert (R1 : generation_rejected host_all_down "") by exact I.
  assert (R2 : generation_rejected host_judge_prose "")
    by (intros r; vm_compute; discriminate).
  pose proof (fallback_on_rejection host_all_down host_judge_prose host_no_credentials "")
    as [F U].
  destruct (F C1 R1 C2 R2) as (F1 & F2 & _).
  split; [exact F1|]. split; [exact F2|].
  apply U. reflexivity.
Defined.

(** C2 (as stated) fails: with the credential unconfigured the generator
    raises, it does not return the fallback. *)
Lemma unconfigured_generator_raises :
  environ host_no_credentials "GEMINI_API_KEY" = None
  /\ generate_itinerary host_no_credentials "Plan a 1-day trip in Tokyo"
     = ([], Raise (HTTPException 500 "Gemini API key not configured."))
  /\ outcome (generate_itinerary host_no_credentials "Plan a 1-day trip in Tokyo")
     <> Ok FALLBACK_ITINERARY.
Proof.
  split; [reflexivity|]. split; [reflexivity|]. discriminate.
Qed.

(** What [plan_trip] does guarantee.  With the generation credential set,
    and provided the weather lookup raises nothing, it returns a response:
    its message starts with the lead sentence; its itinerary is the
    four-entry fallback whenever generation errors or its text is rejected;
    and the itinerary is empty exactly when generation returns a text whose
    validated array is itself empty. *)
Theorem plan_trip_returns (h : host) (request : TripRequest) :
  gemini_configured h ->
  (forall e, outcome (get_weather_forecast h default_city) <> Raise e) ->
  exists r,
    outcome (plan_trip h request) = Ok r
    /\ prefix LEAD_SENTENCE (agent_message r) = true
    /\ (generation_rejected h (prompt request) -> itinerary r = FALLBACK_ITINERARY)
    /\ (itinerary r = [] <->
        exists text,
          generate_content h (itinerary_request h (prompt request)) = Generated text
          /\ validate_itinerary_text text = Ok {| ir_itinerary := [] |}).
Proof.
  intros C W.
  destruct (outcome (get_weather_forecast h default_city)) as [w|e] eqn:Hw;
    [|now elim (W e)].
  pose proof (generate_itinerary_configured h (prompt request) C) as Hi.
  eexists. split; [exact (plan_trip_ok h request _ w Hi Hw)|].
  simpl. split; [|split].
  - destruct w; [reflexivity|]. apply (prefix_app LEAD_SENTENCE).
  - unfold generation_rejected.
    destruct (generate_content h _) as [text|e]; [|reflexivity].
    destruct (ItineraryResponse_model_validate_json _) as [parsed|e] eqn:V; [|reflexivity].
    intros R. now elim (R parsed).
  - unfold validate_itinerary_text.
    destruct (generate_content h _) as [text|e].
    + destruct (ItineraryResponse_model_validate_json _) as [[items]|e] eqn:V; simpl.
      * split.
        -- intros ->. exists text. split; [reflexivity|exact V].
        -- intros (text' & [= <-] & V'). rewrite V in V'. now injection V'.
      * split; [discriminate|]. intros (text' & [= <-] & V'). congruence.
    + split; [discriminate|]. intros (text' & F & _). discriminate.
Qed.

Lemma plan_trip_returns_witness :
  exists r,
    outcome (plan_trip host_sunny_generation_down EMPTY_REQUEST) = Ok r
    /\ itinerary r = FALLBACK_ITINERARY.
Proof.
  destruct (plan_trip_returns host_sunny_generation_down EMPTY_REQUEST)
    as (r & H & _ & F & _).
  - vm_compute. discriminate.
  - intros e. vm_compute. discriminate.
  - exists r. split; [exact H|]. apply F. exact I.
Defined.

(** C1.  The itinerary of a planned trip should never be empty.  Here the
    credential is set and generation returns a schema-valid document whose
    itinerary array is empty: the text passes the gate, no fallback is
    substituted, and [plan_trip] returns a response with an empty
    itinerary. *)
Theorem empty_itinerary_is_returned :
  gemini_configured host_empty_itinerary
  /\ generate_content host_empty_itinerary
       (itinerary_request host_empty_itinerary (prompt EMPTY_REQUEST))
     = Generated (qq "{'itinerary': []}")
  /\ outcome (plan_trip host_empty_itinerary EMPTY_REQUEST)
     = Ok {| itinerary := []; weather := None;
             agent_message := LEAD_SENTENCE ++ WEATHER_APOLOGY |}
  /\ ~ (exists r, outcome (plan_trip host_empty_itinerary EMPTY_REQUEST) = Ok r
                  /\ itinerary r <> []).
Proof.
  split; [vm_compute; discriminate|].
  split; [reflexivity|].
  split; [vm_compute; reflexivity|].
  intros (r & H & N). apply N.
  change (outcome (plan_trip host_empty_itinerary EMPTY_REQUEST))
    with (Ok {| itinerary := []; weather := None;
                agent_message := LEAD_SENTENCE ++ WEATHER_APOLOGY |}) in H.
  now injection H as <-.
Qed.

(* ================================================================== *)
(** ** The itinerary gate: writing, reading back, rejecting *)
(* ================================================================== *)

(** *** Strings *)

Lemma string_app_assoc (a b c : string) : (a ++ b) ++ c = a ++ (b ++ c).
Proof. induction a as [|x a IH]; simpl; [reflexivity | now rewrite IH]. Qed.

Lemma string_app_nil_r (a : string) : a ++ "" = a.
Proof. induction a as [|x a IH]; simpl; [reflexivity | now rewrite IH]. Qed.

Lemma rev_onto_app (s acc : string) : rev_onto s acc = rev s ++ acc.
Proof.
  unfold rev. revert acc. induction s as [|c s IH]; intros acc; simpl; [reflexivity|].
  rewrite (IH (String c acc)), (IH (String c "")), string_app_assoc. reflexivity.
Qed.

Lemma rev_app (a b : string) : rev (a ++ b) = rev b ++ rev a.
Proof.
  induction a as [|c a IH]; simpl.
  - now rewrite string_app_nil_r.
  - unfold rev at 1 3. simpl. rewrite !rev_onto_app, IH, string_app_assoc. reflexivity.
Qed.

Lemma rev_involutive (s : string) : rev (rev s) = s.
Proof.
  induction s as [|c s IH]; [reflexivity|].
  unfold rev at 2. simpl. rewrite rev_onto_app, rev_app, IH. reflexivity.
Qed.

(** *** Reading back an escaped string *)

Lemma parse_escape_char (c : ascii) (tail : string) :
  parse_string_body (escape_char c ++ tail) = cons_fst c (parse_string_body tail).
Proof.
  destruct c as [[] [] [] [] [] [] [] []]; cbn;
    try reflexivity;
    destruct (parse_string_body tail) as [[body rest]|]; reflexivity.
Qed.

Lemma parse_escape (s rest : string) :
  parse_string_body (escape s ++ String DQ rest) = Some (s, rest).
Proof.
  induction s as [|c s IH].
  - reflexivity.
  - simpl escape. rewrite string_app_assoc, parse_escape_char, IH. reflexivity.
Qed.

Lemma dumps_str_app (s rest : string) :
  dumps_str s ++ rest = String DQ (escape s ++ String DQ rest).
Proof. unfold dumps_str, dq. simpl. now rewrite string_app_assoc. Qed.

(** *** More fuel never changes a result *)

Lemma parse_elements_S (f : nat) (s : string) :
  parse_elements (S f) s =
  match parse_value f s with
  | None => None
  | Some (v, r) =>
      match expect "," (skip_ws r) with
      | Some r' =>
          match parse_elements f r' with
          | Some (vs, r'') => Some (v :: vs, r'')
          | None => None
          end
      | None =>
          match expect "]" (skip_ws r) with
          | Some r' => Some ([v], r')
          | None => None
          end
      end
  end.
Proof. reflexivity. Qed.

Lemma parse_members_S (f : nat) (s : string) :
  parse_members (S f) s =
  match expect DQ (skip_ws s) with
  | None => None
  | Some r =>
      match parse_string_body r with
      | None => None
      | Some (k, r1) =>
          match expect ":" (skip_ws r1) with
          | None => None
          | Some r2 =>
              match parse_value f r2 with
              | None => None
              | Some (v, r3) =>
                  match expect "," (skip_ws r3) with
                  | Some r4 =>
                      match parse_members f r4 with
                      | Some (ms, r5) => Some ((k, v) :: ms, r5)
                      | None => None
                      end
                  | None =>
                      match expect "}" (skip_ws r3) with
                      | Some r4 => Some ([(k, v)], r4)
                      | None => None
                      end
                  end
              end
          end
      end
  end.
Proof. reflexivity. Qed.

Lemma parse_value_S (f : nat) (s : string) :
  parse_value (S f) s =
  match expect DQ (skip_ws s) with
  | Some r =>
      match parse_string_body r with
      | Some (str, r') => Some (JString str, r')
      | None => None
      end
  | None =>
      match expect "[" (skip_ws s) with
      | Some r =>
          match expect "]" (skip_ws r) with
          | Some r' => Some (JArray [], r')
          | None =>
              match parse_elements f r with
              | Some (items, r') => Some (JArray items, r')
              | None => None
              end
          end
      | None =>
          match expect "{" (skip_ws s) with
          | Some r =>
              match expect "}" (skip_ws r) with
              | Some r' => Some (JObject [], r')
              | None =>
                  match parse_members f r with
                  | Some (members, r') => Some (JObject members, r')
                  | None => None
                  end
              end
          | None => parse_literal (skip_ws s)
          end
      end
  end.
Proof. reflexivity. Qed.

Lemma parse_fuel_step (f : nat) :
  (forall s r, parse_value f s = Some r -> parse_value (S f) s = Some r)
  /\ (forall s r, parse_elements f s = Some r -> parse_elements (S f) s = Some r)
  /\ (forall s r, parse_members f s = Some r -> parse_members (S f) s = Some r).
Proof.
  induction f as [|f (IHv & IHe & IHm)].
  - repeat split; intros s r H; discriminate H.
  - split; [|split]; intros s r H.
    + rewrite parse_value_S in H |- *.
      destruct (expect DQ (skip_ws s)); [exact H|].
      destruct (expect "[" (skip_ws s)) as [t|].
      { destruct (expect "]" (skip_ws t)); [exact H|].
        destruct (parse_elements f t) as [[items r']|] eqn:P; [|discriminate].
        now rewrite (IHe _ _ P). }
      destruct (expect "{" (skip_ws s)) as [t|]; [|exact H].
      destruct (expect "}" (skip_ws t)); [exact H|].
      destruct (parse_members f t) as [[ms r']|] eqn:P; [|discriminate].
      now rewrite (IHm _ _ P).
    + rewrite parse_elements_S in H |- *.
      destruct (parse_value f s) as [[v t]|] eqn:P; [|discriminate].
      rewrite (IHv _ _ P).
      destruct (expect "," (skip_ws t)) as [t'|]; [|exact H].
      destruct (parse_elements f t') as [[vs r']|] eqn:Q; [|discriminate].
      now rewrite (IHe _ _ Q).
    + rewrite parse_members_S in H |- *.
      destruct (expect DQ (skip_ws s)) as [t|]; [|discriminate].
      destruct (parse_string_body t) as [[k t1]|]; [|discriminate].
      destruct (expect ":" (skip_ws t1)) as [t2|]; [|discriminate].
      destruct (parse_value f t2) as [[v t3]|] eqn:P; [|discriminate].
      rewrite (IHv _ _ P).
      destruct (expect "," (skip_ws t3)) as [t4|]; [|exact H].
      destruct (parse_members f t4) as [[ms r']|] eqn:Q; [|discriminate].
      now rewrite (IHm _ _ Q).
Qed.

Lemma parse_value_fuel (f f' : nat) (s : string) (r : json * string) :
  f <= f' -> parse_value f s = Some r -> parse_value f' s = Some r.
Proof.
  induction 1 as [|f' _ IH]; [trivial|].
  intros H. apply (proj1 (parse_fuel_step f')). auto.
Qed.

Lemma parse_elements_fuel (f f' : nat) (s : string) (r : list json * string) :
  f <= f' -> parse_elements f s = Some r -> parse_elements f' s = Some r.
Proof.
  induction 1 as [|f' _ IH]; [trivial|].
  intros H. apply (proj1 (proj2 (parse_fuel_step f'))). auto.
Qed.

(** *** The fuel of [loads] is enough

    Whatever a reading consumes, twice that many nested calls suffice; so a
    text that some amount of fuel reads is read by [loads]. *)

Lemma parse_members_fuel (f f' : nat) (s : string) (r : list (string * json) * string) :
  f <= f' -> parse_members f s = Some r -> parse_members f' s = Some r.
Proof.
  induction 1 as [|f' _ IH]; [trivial|].
  intros H. apply (proj2 (proj2 (parse_fuel_step f'))). auto.
Qed.

Lemma skip_ws_length (s : string) : String.length (skip_ws s) <= String.length s.
Proof.
  induction s as [|c s IH]; [reflexivity|].
  cbn [skip_ws]. destruct (is_ws c); simpl; lia.
Qed.

Lemma expect_length (c : ascii) (s r : string) :
  expect c s = Some r -> String.length s = S (String.length r).
Proof.
  destruct s as [|d s]; [discriminate|]. unfold expect.
  destruct (Ascii.eqb d c); [|discriminate]. now intros [= ->].
Qed.

Lemma cons_fst_inv (c : ascii) (p : option (string * string)) (b r : string) :
  cons_fst c p = Some (b, r) -> exists b', p = Some (b', r).
Proof. destruct p as [[b' r']|]; [|discriminate]. intros [= _ <-]. eauto. Qed.

Lemma app_fst_inv (pre : string) (p : option (string * string)) (b r : string) :
  app_fst pre p = Some (b, r) -> exists b', p = Some (b', r).
Proof. destruct p as [[b' r']|]; [|discriminate]. intros [= _ <-]. eauto. Qed.

Lemma parse_string_body_length (n : nat) :
  forall s b r,
    String.length s <= n -> parse_string_body s = Some (b, r) ->
    String.length r < String.length s.
Proof.
  induction n as [|n IH]; intros s b r L H.
  - destruct s; [discriminate H | simpl in L; lia].
  - destruct s as [|c s]; [discriminate H|].
    cbn [parse_string_body] in H. simpl in L.
    destruct (Ascii.eqb c DQ); [injection H as _ <-; simpl; lia|].
    destruct (Ascii.eqb c "\").
    + destruct s as [|e s]; [discriminate|].
      destruct (Ascii.eqb e "u").
      * destruct s as [|h1 [|h2 [|h3 [|h4 s]]]]; try discriminate.
        destruct (hex4 h1 h2 h3 h4) as [cp|]; [|discriminate].
        destruct (is_low_surrogate cp); [discriminate|].
        destruct (is_high_surrogate cp).
        -- destruct s as [|b1 [|b2 [|l1 [|l2 [|l3 [|l4 s]]]]]]; try discriminate.
           destruct (Ascii.eqb b1 "\" && Ascii.eqb b2 "u")%bool; [|discriminate].
           destruct (hex4 l1 l2 l3 l4) as [lo|]; [|discriminate].
           destruct (is_low_surrogate lo); [|discriminate].
           apply app_fst_inv in H as (b' & H).
           apply IH in H; simpl in *; lia.
        -- apply app_fst_inv in H as (b' & H).
           apply IH in H; simpl in *; lia.
      * destruct (simple_escape e); [|discriminate].
        apply cons_fst_inv in H as (b' & H).
        apply IH in H; simpl in *; lia.
    + destruct (N.ltb (code c) 32); [discriminate|].
      apply cons_fst_inv in H as (b' & H).
      apply IH in H; simpl in *; lia.
Qed.

Lemma span_digits_length (s : string) :
  forall acc count v n r,
    span_digits acc count s = (v, n, r) -> String.length r <= String.length s.
Proof.
  induction s as [|c s IH]; intros acc count v n r H; cbn [span_digits] in H.
  - injection H as _ _ <-. reflexivity.
  - destruct (is_digit c).
    + apply IH in H. simpl. lia.
    + injection H as _ _ <-. reflexivity.
Qed.

Lemma parse_exponent_length (s r : string) (e : Z) :
  parse_exponent s = Some (e, r) -> String.length r <= String.length s.
Proof.
  unfold parse_exponent. destruct s as [|c s]; [now intros [= _ <-]|].
  destruct (Ascii.eqb c "e" || Ascii.eqb c "E")%bool; [|now intros [= _ <-]].
  match goal with
  | |- context [let '(neg, r1) := ?x in _] => destruct x as [neg r1] eqn:S1
  end.
  assert (L1 : String.length r1 <= String.length s).
  { destruct s as [|sg s']; [now injection S1 as _ <-|].
    destruct (Ascii.eqb sg "-"); [injection S1 as _ <-; simpl; lia|].
    destruct (Ascii.eqb sg "+"); injection S1 as _ <-; simpl; lia. }
  destruct (span_digits 0 0 r1) as [[v n] r2] eqn:S2.
  apply span_digits_length in S2.
  destruct n; [discriminate|]. intros [= _ <-]. simpl. lia.
Qed.

Lemma parse_number_length (s r : string) (v : json) :
  parse_number s = Some (v, r) -> String.length r < String.length s.
Proof.
  unfold parse_number.
  match goal with
  | |- context [let '(neg, s1) := ?x in _] => destruct x as [neg s1] eqn:S1
  end.
  assert (L1 : String.length s1 <= String.length s).
  { destruct s as [|c s']; [now injection S1 as _ <-|].
    destruct (Ascii.eqb c "-"); injection S1 as _ <-; simpl; lia. }
  match goal with
  | |- context [match ?x with Some _ => _ | None => _ end] =>
      destruct x as [[iv s2]|] eqn:S2
  end; [|discriminate].
  assert (L2 : String.length s2 < String.length s1).
  { destruct s1 as [|c s1']; [discriminate|].
    destruct (Ascii.eqb c "0"); [injection S2 as _ <-; simpl; lia|].
    destruct (is_digit c) eqn:D; [|discriminate].
    cbn [span_digits] in S2. rewrite D in S2.
    destruct (span_digits _ _ s1') as [[v' n'] r'] eqn:S3.
    apply span_digits_length in S3. injection S2 as _ <-. simpl. lia. }
  assert (plain :
            (if has_exponent s2
             then match parse_exponent s2 with
                  | Some (e, s5) => Some (JFloat (decimal (if neg then (- iv)%Z else iv) e), s5)
                  | None => None
                  end
             else Some (JInt (if neg then (- iv)%Z else iv), s2)) = Some (v, r) ->
            String.length r < String.length s).
  { destruct (has_exponent s2).
    - destruct (parse_exponent s2) as [[e s5]|] eqn:E; [|discriminate].
      apply parse_exponent_length in E. intros [= _ <-]. lia.
    - intros [= _ <-]. lia. }
  destruct s2 as [|c s3]; [exact plain|].
  destruct (Ascii.eqb c ".") eqn:Dot.
  - apply Ascii.eqb_eq in Dot as ->.
    destruct (span_digits iv 0 s3) as [[mv n] s4] eqn:S4.
    apply span_digits_length in S4.
    destruct n; [discriminate|].
    destruct (parse_exponent s4) as [[e s5]|] eqn:E; [|discriminate].
    apply parse_exponent_length in E. intros [= _ <-]. simpl in *. lia.
  - intros H. apply plain.
    destruct c as [[] [] [] [] [] [] [] []]; try exact H; discriminate Dot.
Qed.

Lemma substring_length (s : string) :
  forall n m, String.length (substring n m s) <= m.
Proof.
  induction s as [|c s IH]; intros n m.
  - destruct n, m; simpl; lia.
  - destruct n as [|n].
    + destruct m as [|m]; simpl; [lia|]. specialize (IH 0 m). lia.
    + simpl. apply IH.
Qed.

Lemma parse_literal_length (s r : string) (v : json) :
  parse_literal s = Some (v, r) -> String.length r < String.length s.
Proof.
  unfold parse_literal.
  assert (K : forall k, s <> "" ->
              String.length (substring k (String.length s - k) s) < String.length s
              \/ k = 0).
  { intros k N. destruct k; [now right|]. left.
    pose proof (substring_length s (S k) (String.length s - S k)).
    destruct s; [congruence|]. simpl String.length in *. lia. }
  destruct (prefix "true" s) eqn:P1.
  { intros [= _ <-]. destruct (K 4) as [L|L]; [now destruct s|exact L|discriminate]. }
  destruct (prefix "false" s) eqn:P2.
  { intros [= _ <-]. destruct (K 5) as [L|L]; [now destruct s|exact L|discriminate]. }
  destruct (prefix "null" s) eqn:P3.
  { intros [= _ <-]. destruct (K 4) as [L|L]; [now destruct s|exact L|discriminate]. }
  apply parse_number_length.
Qed.

Lemma parse_enough (f : nat) :
  (forall s v rest,
     parse_value f s = Some (v, rest) ->
     String.length rest < String.length s
     /\ forall g, 2 * (String.length s - String.length rest) <= g ->
                  parse_value g s = Some (v, rest))
  /\ (forall s vs rest,
        parse_elements f s = Some (vs, rest) ->
        String.length rest < String.length s
        /\ forall g, 2 * (String.length s - String.length rest) <= g ->
                     parse_elements g s = Some (vs, rest))
  /\ (forall s ms rest,
        parse_members f s = Some (ms, rest) ->
        String.length rest < String.length s
        /\ forall g, 2 * (String.length s - String.length rest) <= g ->
                     parse_members g s = Some (ms, rest)).
Proof.
  induction f as [|f (IHv & IHe & IHm)].
  - repeat split; discriminate.
  - split; [|split]; intros s.
    + intros v rest H. rewrite parse_value_S in H.
      pose proof (skip_ws_length s) as Ws.
      destruct (expect DQ (skip_ws s)) as [t|] eqn:E1.
      { apply expect_length in E1 as L1.
        destruct (parse_string_body t) as [[str r']|] eqn:B; [|discriminate].
        injection H as <- <-.
        pose proof (parse_string_body_length _ _ _ _ (le_n _) B) as Lb.
        split; [lia|]. intros g G.
        destruct g as [|g]; [lia|].
        now rewrite parse_value_S, E1, B. }
      destruct (expect "[" (skip_ws s)) as [t|] eqn:E2.
      { apply expect_length in E2 as L2.
        destruct (expect "]" (skip_ws t)) as [t'|] eqn:E3.
        - injection H as <- <-.
          apply expect_length in E3 as L3. pose proof (skip_ws_length t).
          split; [lia|]. intros g G.
          destruct g as [|g]; [lia|].
          now rewrite parse_value_S, E1, E2, E3.
        - destruct (parse_elements f t) as [[items r']|] eqn:P; [|discriminate].
          injection H as <- <-.
          destruct (IHe _ _ _ P) as (Lp & Gp).
          split; [lia|]. intros g G.
          destruct g as [|g]; [lia|].
          rewrite parse_value_S, E1, E2, E3, (Gp g) by lia. reflexivity. }
      destruct (expect "{" (skip_ws s)) as [t|] eqn:E4.
      { apply expect_length in E4 as L4.
        destruct (expect "}" (skip_ws t)) as [t'|] eqn:E5.
        - injection H as <- <-.
          apply expect_length in E5 as L5. pose proof (skip_ws_length t).
          split; [lia|]. intros g G.
          destruct g as [|g]; [lia|].
          now rewrite parse_value_S, E1, E2, E4, E5.
        - destruct (parse_members f t) as [[ms r']|] eqn:P; [|discriminate].
          injection H as <- <-.
          destruct (IHm _ _ _ P) as (Lp & Gp).
          split; [lia|]. intros g G.
          destruct g as [|g]; [lia|].
          rewrite parse_value_S, E1, E2, E4, E5, (Gp g) by lia. reflexivity. }
      apply parse_literal_length in H as Ll.
      split; [lia|]. intros g G.
      destruct g as [|g]; [lia|].
      now rewrite parse_value_S, E1, E2, E4.
    + intros vs rest H. rewrite parse_elements_S in H.
      destruct (parse_value f s) as [[v t]|] eqn:P; [|discriminate].
      destruct (IHv _ _ _ P) as (Lp & Gp).
      pose proof (skip_ws_length t) as Wt.
      destruct (expect "," (skip_ws t)) as [t'|] eqn:E1.
      * apply expect_length in E1 as L1.
        destruct (parse_elements f t') as [[vs' r']|] eqn:Q; [|discriminate].
        injection H as <- <-.
        destruct (IHe _ _ _ Q) as (Lq & Gq).
        split; [lia|]. intros g G.
        destruct g as [|g]; [lia|].
        rewrite parse_elements_S, (Gp g), E1, (Gq g) by lia. reflexivity.
      * destruct (expect "]" (skip_ws t)) as [t'|] eqn:E2; [|discriminate].
        apply expect_length in E2 as L2.
        injection H as <- <-.
        split; [lia|]. intros g G.
        destruct g as [|g]; [lia|].
        rewrite parse_elements_S, (Gp g), E1, E2 by lia. reflexivity.
    + intros ms rest H. rewrite parse_members_S in H.
      pose proof (skip_ws_length s) as Ws.
      destruct (expect DQ (skip_ws s)) as [t|] eqn:E1; [|discriminate].
      apply expect_length in E1 as L1.
      destruct (parse_string_body t) as [[k t1]|] eqn:B; [|discriminate].
      pose proof (parse_string_body_length _ _ _ _ (le_n _) B) as Lb.
      pose proof (skip_ws_length t1) as W1.
      destruct (expect ":" (skip_ws t1)) as [t2|] eqn:E2; [|discriminate].
      apply expect_length in E2 as L2.
      destruct (parse_value f t2) as [[v t3]|] eqn:P; [|discriminate].
      destruct (IHv _ _ _ P) as (Lp & Gp).
      pose proof (skip_ws_length t3) as W3.
      destruct (expect "," (skip_ws t3)) as [t4|] eqn:E3.
      * apply expect_length in E3 as L3.
        destruct (parse_members f t4) as [[ms' r']|] eqn:Q; [|discriminate].
        injection H as <- <-.
        destruct (IHm _ _ _ Q) as (Lq & Gq).
        split; [lia|]. intros g G.
        destruct g as [|g]; [lia|].
        rewrite parse_members_S, E1, B, E2, (Gp g), E3, (Gq g) by lia. reflexivity.
      * destruct (expect "}" (skip_ws t3)) as [t4|] eqn:E4; [|discriminate].
        apply expect_length in E4 as L4.
        injection H as <- <-.
        split; [lia|]. intros g G.
        destruct g as [|g]; [lia|].
        rewrite parse_members_S, E1, B, E2, (Gp g), E3, E4 by lia. reflexivity.
Qed.

(** Whatever some fuel reads, [loads] reads. *)
Lemma loads_complete (f : nat) (s : string) (v : json) (rest : string) :
  parse_value f s = Some (v, rest) -> skip_ws rest = "" -> loads s = Some v.
Proof.
  intros P W. unfold loads.
  destruct (proj1 (parse_enough f) _ _ _ P) as (_ & G).
  rewrite (G (2 * String.length s + 2)) by lia.
  now rewrite W.
Qed.

(** *** Reading back a written itinerary *)

Lemma skip_ws_DQ (s : string) : skip_ws (String DQ s) = String DQ s.
Proof. reflexivity. Qed.

Lemma expect_head (c : ascii) (s : string) : expect c (String c s) = Some s.
Proof. unfold expect. now rewrite Ascii.eqb_refl. Qed.

Lemma parse_value_dumps_str (f : nat) (s rest : string) :
  parse_value (S f) (dumps_str s ++ rest) = Some (JString s, rest).
Proof.
  rewrite dumps_str_app, parse_value_S, skip_ws_DQ, expect_head, parse_escape.
  reflexivity.
Qed.

(** One member with a string value, then the closing brace. *)
Lemma parse_members_last (f : nat) (k s rest : string) :
  parse_members (S (S f)) (dumps_str k ++ ":" ++ dumps_str s ++ "}" ++ rest)
  = Some ([(k, JString s)], rest).
Proof.
  rewrite (dumps_str_app k), parse_members_S, skip_ws_DQ, expect_head, parse_escape.
  change (skip_ws (":" ++ dumps_str s ++ "}" ++ rest))
    with (String ":" (dumps_str s ++ "}" ++ rest)).
  rewrite expect_head, parse_value_dumps_str. reflexivity.
Qed.

(** One member with a string value, then a comma and more members. *)
Lemma parse_members_more (f : nat) (k s tail : string)
    (ms : list (string * json)) (rest : string) :
  parse_members (S f) tail = Some (ms, rest) ->
  parse_members (S (S f)) (dumps_str k ++ ":" ++ dumps_str s ++ "," ++ tail)
  = Some ((k, JString s) :: ms, rest).
Proof.
  intros H.
  rewrite (dumps_str_app k), parse_members_S, skip_ws_DQ, expect_head, parse_escape.
  change (skip_ws (":" ++ dumps_str s ++ "," ++ tail))
    with (String ":" (dumps_str s ++ "," ++ tail)).
  rewrite expect_head, parse_value_dumps_str.
  change (skip_ws ("," ++ tail)) with (String "," tail).
  rewrite expect_head, H. reflexivity.
Qed.

Lemma skip_ws_dumps_str (s rest : string) :
  skip_ws (dumps_str s ++ rest) = dumps_str s ++ rest.
Proof. now rewrite dumps_str_app. Qed.

Lemma expect_dumps_str (c : ascii) (s rest : string) :
  c <> DQ -> expect c (dumps_str s ++ rest) = None.
Proof.
  intros N. rewrite dumps_str_app. unfold expect.
  destruct (Ascii.eqb_spec DQ c); [congruence | reflexivity].
Qed.

Lemma parse_value_item (f : nat) (i : ItineraryItem) (rest : string) :
  parse_value (5 + f) (dumps_ItineraryItem i ++ rest)
  = Some (json_of_ItineraryItem i, rest).
Proof.
  unfold dumps_ItineraryItem.
  repeat rewrite string_app_assoc.
  change (5 + f) with (S (S (S (S (S f))))).
  rewrite parse_value_S.
  change (skip_ws ("{" ++ ?x)) with (String "{" x).
  change (expect DQ (String "{" ?x)) with (@None string).
  change (expect "[" (String "{" ?x)) with (@None string).
  cbv iota. rewrite expect_head.
  rewrite skip_ws_dumps_str, expect_dumps_str by discriminate.
  rewrite (parse_members_more (S (S f)) "time" (time i) _
             [("activity", JString (activity i));
              ("description", JString (description i))] rest).
  - reflexivity.
  - rewrite (parse_members_more (S f) "activity" (activity i) _
               [("description", JString (description i))] rest).
    + reflexivity.
    + apply parse_members_last.
Qed.

Lemma parse_elements_items (i : ItineraryItem) (items : list ItineraryItem) (rest : string) :
  parse_elements (List.length (i :: items) + 5)
    (String.concat "," (map dumps_ItineraryItem (i :: items)) ++ "]" ++ rest)
  = Some (map json_of_ItineraryItem (i :: items), rest).
Proof.
  revert i. induction items as [|j items IH]; intros i.
  - cbn [map String.concat List.length Nat.add].
    rewrite parse_elements_S, (parse_value_item 0).
    reflexivity.
  - change (String.concat "," (map dumps_ItineraryItem (i :: j :: items)))
      with (dumps_ItineraryItem i ++ ","
            ++ String.concat "," (map dumps_ItineraryItem (j :: items))).
    repeat rewrite string_app_assoc.
    change (List.length (i :: j :: items) + 5)
      with (S (List.length (j :: items) + 5)).
    rewrite parse_elements_S.
    rewrite (parse_value_fuel 5 (List.length (j :: items) + 5) _ _
               (Nat.le_add_l 5 _) (parse_value_item 0 i _)).
    change (skip_ws ("," ++ ?x)) with (String "," x).
    rewrite expect_head, IH. reflexivity.
Qed.

Lemma concat_items_head (i : ItineraryItem) (items : list ItineraryItem) :
  exists tail,
    String.concat "," (map dumps_ItineraryItem (i :: items)) = String "{" tail.
Proof.
  destruct items; simpl; eexists; reflexivity.
Qed.

Lemma parse_value_document (r : ItineraryResponse) (rest : string) :
  parse_value (List.length (ir_itinerary r) + 8) (model_dump_json r ++ rest)
  = Some (JObject [("itinerary", JArray (map json_of_ItineraryItem (ir_itinerary r)))],
          rest).
Proof.
  destruct r as [items]. unfold model_dump_json. cbn [ir_itinerary].
  repeat rewrite string_app_assoc.
  replace (List.length items + 8) with (S (S (S (List.length items + 5)))) by lia.
  rewrite parse_value_S.
  change (skip_ws ("{" ++ ?x)) with (String "{" x).
  change (expect DQ (String "{" ?x)) with (@None string).
  change (expect "[" (String "{" ?x)) with (@None string).
  cbv iota. rewrite expect_head.
  rewrite skip_ws_dumps_str, expect_dumps_str by discriminate.
  rewrite (dumps_str_app "itinerary"), parse_members_S, skip_ws_DQ, expect_head,
    parse_escape.
  change (skip_ws (":[" ++ ?x)) with (String ":" (String "[" x)).
  rewrite expect_head, parse_value_S.
  change (skip_ws (String "[" ?x)) with (String "[" x).
  change (expect DQ (String "[" ?x)) with (@None string).
  cbv iota. rewrite expect_head.
  destruct items as [|i items].
  - reflexivity.
  - destruct (concat_items_head i items) as (tail & E).
    rewrite E at 1.
    change (skip_ws (String "{" tail ++ "]}" ++ rest))
      with (String "{" (tail ++ "]}" ++ rest)).
    change (expect "]" (String "{" ?x)) with (@None string).
    cbv iota.
    change ("]}" ++ rest) with ("]" ++ "}" ++ rest).
    rewrite parse_elements_items. reflexivity.
Qed.

Lemma loads_model_dump_json (r : ItineraryResponse) :
  loads (model_dump_json r)
  = Some (JObject [("itinerary", JArray (map json_of_ItineraryItem (ir_itinerary r)))]).
Proof.
  pose proof (parse_value_document r "") as P.
  rewrite string_app_nil_r in P.
  exact (loads_complete _ _ _ _ P eq_refl).
Qed.

(** *** Validating the document of an itinerary *)

Lemma validate_json_of_ItineraryItem (title : string) (i : ItineraryItem) :
  validate_ItineraryItem title (json_of_ItineraryItem i) = Ok i.
Proof. destruct i. reflexivity. Qed.

Lemma validate_each_items (title : string) (items : list ItineraryItem) :
  validate_each (validate_ItineraryItem title) (map json_of_ItineraryItem items)
  = Ok items.
Proof.
  induction items as [|i items IH]; [reflexivity|].
  cbn [map validate_each]. rewrite validate_json_of_ItineraryItem, IH. reflexivity.
Qed.

Lemma validate_model_dump_json (r : ItineraryResponse) :
  ItineraryResponse_model_validate_json (model_dump_json r) = Ok r.
Proof.
  unfold ItineraryResponse_model_validate_json, model_validate_json.
  rewrite loads_model_dump_json.
  unfold validate_ItineraryResponse, field. cbn [obj_get String.eqb Ascii.eqb Bool.eqb].
  unfold validate_list. rewrite validate_each_items. destruct r; reflexivity.
Qed.

(** *** Cleaning a text that has no wrapping *)

Lemma lstrip_brace (s : string) : lstrip (String "{" s) = String "{" s.
Proof. destruct s as [|c2 [|c3 s]]; reflexivity. Qed.

Lemma lstrip_rev_brace (s : string) : lstrip_rev (String "}" s) = String "}" s.
Proof.
  destruct s as [|c2 [|c3 s]]; try reflexivity.
  - cbn [lstrip_rev]. change (is_space1 "}") with false. cbv iota.
    replace (is_space2 c2 "}") with false; [reflexivity|].
    unfold is_space2. change (code "}") with 125%N. cbn.
    now rewrite andb_false_r.
  - cbn [lstrip_rev]. change (is_space1 "}") with false. cbv iota.
    replace (is_space2 c2 "}") with false.
    + replace (is_space3 c3 c2 "}") with false; [reflexivity|].
      unfold is_space3. change (code "}") with 125%N. cbn.
      now rewrite !andb_false_r.
    + unfold is_space2. change (code "}") with 125%N. cbn.
      now rewrite andb_false_r.
Qed.

Lemma strip_braces (s : string) :
  strip (String "{" (s ++ "}")) = String "{" (s ++ "}").
Proof.
  unfold strip, rstrip. rewrite lstrip_brace.
  change (String "{" (s ++ "}")) with (String "{" s ++ "}").
  rewrite rev_app. change (rev "}") with "}". cbn [append].
  rewrite lstrip_rev_brace.
  change (String "}" (rev (String "{" s))) with (rev "}" ++ rev (String "{" s)).
  rewrite <- rev_app, rev_involutive. reflexivity.
Qed.

Lemma prefix_nil (s : string) : prefix "" s = true.
Proof. now destruct s. Qed.

Lemma prefix_of_app (a b s : string) : prefix (a ++ b) s = true -> prefix a s = true.
Proof.
  revert s. induction a as [|c a IH]; intros s; [intros _; apply prefix_nil|].
  destruct s as [|d s]; [discriminate|].
  cbn [append]. rewrite !prefix_cons.
  intros H. apply andb_prop in H as [-> H]. now rewrite (IH _ H).
Qed.

Lemma contains_of_app (a b s : string) :
  contains (a ++ b) s = true -> contains a s = true.
Proof.
  induction s as [|c s IH]; cbn [contains]; intros H.
  - apply orb_prop in H as [H | H]; [|discriminate].
    now rewrite (prefix_of_app _ _ _ H).
  - apply orb_prop in H as [H | H].
    + now rewrite (prefix_of_app _ _ _ H).
    + rewrite (IH H). apply orb_true_r.
Qed.

Lemma replace_from_absent (old new s : string) :
  contains old s = false -> replace_from old new 0 s = s.
Proof.
  induction s as [|c s IH]; [reflexivity|].
  cbn [contains replace_from]. intros H.
  apply orb_false_elim in H as [-> H]. now rewrite (IH H).
Qed.

Lemma replace_absent (old new s : string) :
  old <> "" -> contains old s = false -> replace old new s = s.
Proof.
  intros N H. unfold replace. destruct old; [congruence|].
  now apply replace_from_absent.
Qed.

Lemma clean_response_plain (s : string) :
  contains FENCE (String "{" (s ++ "}")) = false ->
  clean_response (String "{" (s ++ "}")) = String "{" (s ++ "}").
Proof.
  intros H. unfold clean_response. rewrite strip_braces.
  rewrite (replace_absent "```json"); [|discriminate|].
  - apply replace_absent; [discriminate | exact H].
  - destruct (contains "```json" _) eqn:E; [|reflexivity].
    apply (contains_of_app "```" "json") in E. unfold FENCE in H. congruence.
Qed.

(** *** Looking for a fence *)

Lemma fence_run_found (s : string) : fence_run FenceFound s = FenceFound.
Proof. induction s as [|c s IH]; [reflexivity | exact IH]. Qed.

Lemma fence_run_app (st : fence_state) (a b : string) :
  fence_run st (a ++ b) = fence_run (fence_run st a) b.
Proof. revert st. induction a as [|c a IH]; intros st; [reflexivity | apply IH]. Qed.

Lemma prefix_tick2_tick1 (s : string) : prefix "``" s = true -> prefix "`" s = true.
Proof. apply (prefix_of_app "`" "`"). Qed.

Lemma contains_fence_run (s : string) :
  fence_found (fence_run Fence0 s) = contains FENCE s
  /\ fence_found (fence_run Fence1 s) = (prefix "``" s || contains FENCE s)%bool
  /\ fence_found (fence_run Fence2 s) = (prefix "`" s || contains FENCE s)%bool.
Proof.
  unfold FENCE.
  induction s as [|c s (IH0 & IH1 & IH2)]; [repeat split|].
  cbn [fence_run contains]. rewrite !prefix_cons.
  unfold fence_step. rewrite (Ascii.eqb_sym "`" c).
  destruct (Ascii.eqb c "`"); cbn [andb orb].
  - rewrite fence_run_found, IH1, IH2, prefix_nil. repeat split.
    destruct (prefix "``" s) eqn:P.
    + now rewrite (prefix_tick2_tick1 _ P).
    + reflexivity.
  - rewrite IH0. repeat split.
Qed.

Lemma fence_run_not_found (s : string) :
  contains FENCE s = false -> fence_found (fence_run Fence0 s) = false.
Proof. now rewrite (proj1 (contains_fence_run s)). Qed.

Lemma fence_run_escape_char (st : fence_state) (c : ascii) :
  fence_run st (escape_char c) = fence_step st c.
Proof.
  destruct c as [[] [] [] [] [] [] [] []]; destruct st; reflexivity.
Qed.

Lemma fence_run_escape (st : fence_state) (s : string) :
  fence_run st (escape s) = fence_run st s.
Proof.
  revert st. induction s as [|c s IH]; intros st; [reflexivity|].
  cbn [escape fence_run]. now rewrite fence_run_app, fence_run_escape_char, IH.
Qed.

Lemma fence_run_dumps_str (s tail : string) :
  fence_found (fence_run Fence0 s) = false ->
  fence_run Fence0 (dumps_str s ++ tail) = fence_run Fence0 tail.
Proof.
  intros H. rewrite dumps_str_app.
  change (fence_run Fence0 (String DQ ?x)) with (fence_run Fence0 x).
  rewrite fence_run_app, fence_run_escape.
  destruct (fence_run Fence0 s); try reflexivity; discriminate H.
Qed.

Lemma fence_run_item (i : ItineraryItem) (tail : string) :
  fence_free i ->
  fence_run Fence0 (dumps_ItineraryItem i ++ tail) = fence_run Fence0 tail.
Proof.
  intros (Ht & Ha & Hd). unfold dumps_ItineraryItem.
  repeat rewrite string_app_assoc.
  change (fence_run Fence0 ("{" ++ ?x)) with (fence_run Fence0 x).
  rewrite fence_run_dumps_str by reflexivity.
  change (fence_run Fence0 (":" ++ ?x)) with (fence_run Fence0 x).
  rewrite fence_run_dumps_str by now apply fence_run_not_found.
  change (fence_run Fence0 ("," ++ ?x)) with (fence_run Fence0 x).
  rewrite fence_run_dumps_str by reflexivity.
  change (fence_run Fence0 (":" ++ ?x)) with (fence_run Fence0 x).
  rewrite fence_run_dumps_str by now apply fence_run_not_found.
  change (fence_run Fence0 ("," ++ ?x)) with (fence_run Fence0 x).
  rewrite fence_run_dumps_str by reflexivity.
  change (fence_run Fence0 (":" ++ ?x)) with (fence_run Fence0 x).
  rewrite fence_run_dumps_str by now apply fence_run_not_found.
  reflexivity.
Qed.

Lemma fence_run_items (items : list ItineraryItem) (tail : string) :
  Forall fence_free items ->
  fence_run Fence0 (String.concat "," (map dumps_ItineraryItem items) ++ tail)
  = fence_run Fence0 tail.
Proof.
  induction 1 as [|i items Hi Hs IH]; [reflexivity|].
  destruct items as [|j items].
  - cbn [map String.concat]. now apply fence_run_item.
  - change (String.concat "," (map dumps_ItineraryItem (i :: j :: items)))
      with (dumps_ItineraryItem i ++ ","
            ++ String.concat "," (map dumps_ItineraryItem (j :: items))).
    repeat rewrite string_app_assoc.
    rewrite fence_run_item by assumption.
    change (fence_run Fence0 ("," ++ ?x)) with (fence_run Fence0 x).
    exact IH.
Qed.

Lemma model_dump_json_fence_free (r : ItineraryResponse) :
  Forall fence_free (ir_itinerary r) ->
  contains FENCE (model_dump_json r) = false.
Proof.
  intros H. rewrite <- (proj1 (contains_fence_run _)).
  unfold model_dump_json.
  change (fence_run Fence0 ("{" ++ ?x)) with (fence_run Fence0 x).
  rewrite fence_run_dumps_str by reflexivity.
  change (fence_run Fence0 (":[" ++ ?x)) with (fence_run Fence0 x).
  rewrite fence_run_items by assumption. reflexivity.
Qed.

Lemma model_dump_json_braces (r : ItineraryResponse) :
  exists s, model_dump_json r = String "{" (s ++ "}").
Proof.
  unfold model_dump_json.
  exists (dumps_str "itinerary" ++ ":["
          ++ String.concat "," (map dumps_ItineraryItem (ir_itinerary r)) ++ "]").
  rewrite !string_app_assoc. reflexivity.
Qed.

Lemma clean_model_dump_json (r : ItineraryResponse) :
  Forall fence_free (ir_itinerary r) ->
  clean_response (model_dump_json r) = model_dump_json r.
Proof.
  intros H. pose proof (model_dump_json_fence_free r H) as F.
  destruct (model_dump_json_braces r) as (s & E). rewrite E in F |- *.
  now apply clean_response_plain.
Qed.

(** *** Rejecting defective documents *)

Lemma validate_each_Exists {A} (validate : json -> result A) (items : list json) :
  Exists (fun v => exists e, validate v = Raise e) items ->
  exists e, validate_each validate items = Raise e.
Proof.
  induction items as [|v items IH]; intros H; [inversion H|].
  cbn [validate_each].
  destruct (validate v) as [a|e] eqn:V; [|eexists; reflexivity].
  cbn [rbind].
  inversion H as [? ? (e & He)|? ? Ht]; subst; [congruence|].
  destruct (IH Ht) as (e & ->). eexists; reflexivity.
Qed.

Ltac raise_now := eexists; reflexivity.

Ltac next_field :=
  match goal with
  | |- exists e, rbind ?r _ = Raise e =>
      let a := fresh "a" in
      let e := fresh "e" in
      destruct r as [a|e] eqn:?; [cbn [rbind] | raise_now]
  end.

Lemma field_missing {A} (validate : string -> string -> json -> result A)
    (title name : string) (members : list (string * json)) :
  obj_get name members = None ->
  exists e, field validate title members name = Raise e.
Proof. intros H. unfold field. rewrite H. raise_now. Qed.

Lemma item_lacks_field_rejected (title : string) (v : json) :
  item_lacks_field v -> exists e, validate_ItineraryItem title v = Raise e.
Proof.
  intros (members & -> & H). unfold validate_ItineraryItem.
  destruct H as [H | [H | H]];
    destruct (field_missing validate_str title _ members H) as (e & E).
  - rewrite E. raise_now.
  - next_field. rewrite E. raise_now.
  - do 2 next_field. rewrite E. raise_now.
Qed.

Lemma itinerary_lacks_field_rejected (v : json) :
  itinerary_lacks_field v -> exists e, validate_ItineraryResponse v = Raise e.
Proof.
  intros (members & -> & H). unfold validate_ItineraryResponse.
  destruct H as [H | (items & H & E)].
  - destruct (field_missing (validate_list validate_ItineraryItem)
                "ItineraryResponse" _ members H) as (e & ->).
    raise_now.
  - unfold field. rewrite H. unfold validate_list.
    destruct (validate_each_Exists (validate_ItineraryItem "ItineraryResponse") items)
      as (e & ->); [|raise_now].
    eapply Exists_impl; [|exact E].
    intros a. apply item_lacks_field_rejected.
Qed.

Lemma criterion_rejected (title : string) (v : json) :
  criterion_lacks_field v \/ criterion_out_of_range v ->
  exists e, validate_EvaluationCriterion title v = Raise e.
Proof.
  intros [(members & -> & H) | (members & sv & z & -> & H & I & R)];
    unfold validate_EvaluationCriterion.
  - destruct H as [H | [H | H]].
    + destruct (field_missing validate_str title _ members H) as (e & ->). raise_now.
    + next_field.
      destruct (field_missing (validate_int_range 1 5) title _ members H) as (e' & ->).
      raise_now.
    + do 2 next_field.
      destruct (field_missing validate_str title _ members H) as (e' & ->). raise_now.
  - next_field. unfold field. rewrite H.
    unfold validate_int_range, validate_int. rewrite I. cbn [rbind].
    destruct (Z.ltb_spec z 1); [raise_now|].
    destruct (Z.ltb_spec 5 z); [raise_now | lia].
Qed.

Lemma evaluation_defective_rejected (v : json) :
  evaluation_defective v -> exists e, validate_EvaluationResponse v = Raise e.
Proof.
  intros (members & -> & H). unfold validate_EvaluationResponse.
  destruct H as [H | [H | [H | (items & H & E)]]].
  - destruct (field_missing validate_str "EvaluationResponse" _ members H) as (e & ->).
    raise_now.
  - next_field.
    destruct (field_missing validate_float "EvaluationResponse" _ members H) as (e' & ->).
    raise_now.
  - do 2 next_field.
    destruct (field_missing (validate_list validate_EvaluationCriterion)
                "EvaluationResponse" _ members H) as (e' & ->).
    raise_now.
  - do 2 next_field. unfold field. rewrite H. unfold validate_list.
    destruct (validate_each_Exists (validate_EvaluationCriterion "EvaluationResponse") items)
      as (e' & ->); [|raise_now].
    eapply Exists_impl; [|exact E].
    intros c. apply criterion_rejected.
Qed.

(** C8 (as the code has it).  Writing an itinerary and passing the text
    through the gate gives the itinerary back, provided none of its strings
    holds a fence of three backticks (the cleaning removes fences wherever
    they stand).  A text whose document lacks a required field, or holds a
    score outside 1..5, is rejected with an error and yields no value. *)
Theorem gate_round_trip_and_rejection :
  (forall r, Forall fence_free (ir_itinerary r) ->
             validate_itinerary_text (model_dump_json r) = Ok r)
  /\ (forall text v,
        loads (clean_response text) = Some v -> itinerary_lacks_field v ->
        exists e, validate_itinerary_text text = Raise e)
  /\ (forall text v,
        loads text = Some v -> evaluation_defective v ->
        exists e, EvaluationResponse_model_validate_json text = Raise e).
Proof.
  split; [|split].
  - intros r H. unfold validate_itinerary_text.
    rewrite (clean_model_dump_json r H). apply validate_model_dump_json.
  - intros text v L D.
    unfold validate_itinerary_text, ItineraryResponse_model_validate_json,
      model_validate_json.
    rewrite L. now apply itinerary_lacks_field_rejected.
  - intros text v L D.
    unfold EvaluationResponse_model_validate_json, model_validate_json.
    rewrite L. now apply evaluation_defective_rejected.
Qed.

Lemma gate_round_trip_and_rejection_witness :
  validate_itinerary_text (model_dump_json {| ir_itinerary := PLAIN_ITEM :: FALLBACK_ITINERARY |})
  = Ok {| ir_itinerary := PLAIN_ITEM :: FALLBACK_ITINERARY |}
  /\ (exists e, validate_itinerary_text ITEM_WITHOUT_DESCRIPTION = Raise e)
  /\ (exists e, EvaluationResponse_model_validate_json SCORE_SIX = Raise e).
Proof.
  destruct gate_round_trip_and_rejection as (R & I & E).
  split; [|split].
  - apply R. repeat constructor; vm_compute; reflexivity.
  - eapply I; [vm_compute; reflexivity|].
    eexists. split; [reflexivity|]. right.
    eexists. split; [reflexivity|].
    constructor. eexists. split; [reflexivity|]. right. right. reflexivity.
  - eapply E; [vm_compute; reflexivity|].
    eexists. split; [reflexivity|]. right. right. right.
    eexists. split; [reflexivity|].
    constructor. right. eexists. exists (JInt 6), 6%Z.
    split; [reflexivity|]. split; [reflexivity|]. split; [reflexivity|]. lia.
Defined.

(** C8 (as stated) fails: an itinerary whose description holds a fence is
    written, cleaned of its fence, and read back as another itinerary. *)
Lemma fenced_description_is_altered :
  model_dump_json {| ir_itinerary := [FENCED_ITEM] |}
  = qq "{'itinerary':[{'time':'9:00 AM','activity':'Write notes','description':'Use ```text``` blocks in your travel journal.'}]}"
  /\ ItineraryResponse_model_validate_json (model_dump_json {| ir_itinerary := [FENCED_ITEM] |})
     = Ok {| ir_itinerary := [FENCED_ITEM] |}
  /\ validate_itinerary_text (model_dump_json {| ir_itinerary := [FENCED_ITEM] |})
     = Ok {| ir_itinerary :=
               [ {| time := "9:00 AM"; activity := "Write notes";
                    description := "Use text blocks in your travel journal." |} ] |}
  /\ validate_itinerary_text (model_dump_json {| ir_itinerary := [FENCED_ITEM] |})
     <> Ok {| ir_itinerary := [FENCED_ITEM] |}.
Proof.
  split; [vm_compute; reflexivity|].
  split; [vm_compute; reflexivity|].
  split; [vm_compute; reflexivity|].
  vm_compute. discriminate.
Qed.

(* ================================================================== *)
(** ** Further properties of the weather lookup *)
(* ================================================================== *)

Lemma weather_key_test (h : host) :
  weather_configured h ->
  String.eqb (WEATHER_API_KEY h) "YOUR_WEATHER_API_KEY" = false.
Proof. intros C. now apply String.eqb_neq. Qed.

(** X2.  When [get_weather_forecast] raises, the credential is set and the
    exception is one the handler does not catch, so neither an
    [httpx.RequestError] nor an [httpx.HTTPStatusError].  Either the client
    has refused the URL, no request has been made and the exception is its
    [httpx.InvalidURL]; or the provider has answered with a status of the
    2xx class and the exception comes from what follows, one request
    having been made.  Nothing is printed in either case. *)
Theorem weather_raise_is_refusal_or_after_success (h : host) (city : string) (e : exn) :
  outcome (get_weather_forecast h city) = Raise e ->
  weather_configured h
  /\ weather_handler e = None
  /\ ((exists m,
         http_get h (weather_url h city) = Refused m
         /\ e = InvalidURL m
         /\ trace (get_weather_forecast h city) = [])
      \/ (exists status body,
            http_get h (weather_url h city) = Response status body
            /\ (200 <= status <= 299)%Z
            /\ trace (get_weather_forecast h city) = [HttpGet (weather_url h city)])).
Proof.
  intros H.
  destruct (string_dec (WEATHER_API_KEY h) "YOUR_WEATHER_API_KEY") as [U|C].
  { rewrite (get_weather_forecast_unconfigured h city U) in H. discriminate. }
  split; [exact C|].
  split; [exact (get_weather_forecast_uncaught h city e H)|].
  destruct (get_weather_forecast_trace h city (weather_key_test h C)) as (log & T & L).
  assert (N : log = []).
  { destruct L as [-> | (line & _ & O)]; [reflexivity | congruence]. }
  subst log. rewrite app_nil_r in T.
  destruct (http_get h (weather_url h city)) as [status body|m|m] eqn:G.
  - right. exists status, body. split; [reflexivity|]. split; [|exact T].
    destruct (Z_le_dec 200 status) as [L1|L1];
      [destruct (Z_le_dec status 299) as [L2|L2]; [lia|]|];
      rewrite (weather_failures_become_absent h city) in H;
      try discriminate H; right; right; exists status, body; split; auto; lia.
  - rewrite (weather_failures_become_absent h city) in H; [discriminate|].
    right. left. eauto.
  - left. exists m. split; [reflexivity|]. split; [|exact T].
    revert H. unfold get_weather_forecast. rewrite (weather_key_test h C).
    unfold client_get. rewrite G. cbn. now intros [= <-].
Qed.

Lemma weather_raise_is_refusal_or_after_success_witness :
  (weather_configured host_odd_weather_body
   /\ weather_handler (KeyError "'weather'") = None
   /\ ((exists m,
          http_get host_odd_weather_body (weather_url host_odd_weather_body "Tokyo")
          = Refused m
          /\ KeyError "'weather'" = InvalidURL m
          /\ trace (get_weather_forecast host_odd_weather_body "Tokyo") = [])
       \/ (exists status body,
             http_get host_odd_weather_body (weather_url host_odd_weather_body "Tokyo")
             = Response status body
             /\ (200 <= status <= 299)%Z
             /\ trace (get_weather_forecast host_odd_weather_body "Tokyo")
                = [HttpGet (weather_url host_odd_weather_body "Tokyo")])))
  /\ outcome (get_weather_forecast host_url_refused "Tokyo")
     = Raise (InvalidURL "Invalid non-printable ASCII character in URL").
Proof.
  split.
  - apply (weather_raise_is_refusal_or_after_success host_odd_weather_body "Tokyo").
    vm_compute. reflexivity.
  - vm_compute. reflexivity.
Defined.

(** X1.  With the credential set, a transport failure or a status outside
    the 2xx class is absorbed: one request has been made, one line
    "Weather API error: ..." printed, and the result is [None]. *)
Theorem weather_failure_is_logged_and_absent (h : host) (city : string) :
  weather_configured h ->
  (exists m, http_get h (weather_url h city) = TransportFailure m)
  \/ (exists status body,
        http_get h (weather_url h city) = Response status body
        /\ (status < 200 \/ 299 < status)%Z) ->
  exists e,
    get_weather_forecast h city
    = ([HttpGet (weather_url h city); Print ("Weather API error: " ++ str_of_exn e)],
       Ok None)
    /\ match http_get h (weather_url h city) with
       | TransportFailure m => e = RequestError m
       | Response status _ => e = HTTPStatusError status
       | Refused _ => False
       end.
Proof.
  intros C H. unfold get_weather_forecast. rewrite (weather_key_test h C).
  unfold client_get.
  destruct H as [(m & ->) | (status & body & -> & R)].
  - exists (RequestError m). split; reflexivity.
  - assert (B : ((200 <=? status) && (status <=? 299))%Z = false).
    { apply andb_false_iff. destruct R; [left | right]; apply Z.leb_gt; lia. }
    exists (HTTPStatusError status).
    unfold raise_for_status, bind, emit, ret. cbn [fst]. rewrite B.
    split; reflexivity.
Qed.

Lemma weather_failure_is_logged_and_absent_witness :
  get_weather_forecast host_weather_not_found "Tokyo"
  = ([HttpGet (weather_url host_weather_not_found "Tokyo");
      Print "Weather API error: HTTP status 404"],
     Ok None).
Proof.
  destruct (weather_failure_is_logged_and_absent host_weather_not_found "Tokyo")
    as (e & E & K).
  - vm_compute. discriminate.
  - right. exists 404%Z. eexists. split; [reflexivity | lia].
  - simpl in K. subst e. exact E.
Defined.



(** X4.  A lookup with the credential set makes at most one request.  When
    the client refuses the URL it makes none, prints nothing and raises the
    client's [httpx.InvalidURL]; otherwise it makes exactly one, to the URL
    of the city, before anything else, and then prints at most one line.
    It never calls the generation service. *)
Theorem weather_makes_at_most_one_request (h : host) (city : string) :
  weather_configured h ->
  match http_get h (weather_url h city) with
  | Refused m => get_weather_forecast h city = ([], Raise (InvalidURL m))
  | _ =>
      exists log,
        trace (get_weather_forecast h city) = HttpGet (weather_url h city) :: log
        /\ (log = [] \/ exists line, log = [Print line])
  end.
Proof.
  intros C.
  destruct (get_weather_forecast_trace h city (weather_key_test h C)) as (log & T & L).
  assert (L' : log = [] \/ exists line, log = [Print line]).
  { destruct L as [-> | (line & -> & _)]; [now left | right; eauto]. }
  destruct (http_get h (weather_url h city)) as [status body|m|m] eqn:G.
  - exists log. split; [exact T | exact L'].
  - exists log. split; [exact T | exact L'].
  - unfold get_weather_forecast. rewrite (weather_key_test h C).
    unfold client_get. rewrite G. reflexivity.
Qed.

Lemma weather_makes_at_most_one_request_witness :
  (exists log,
     trace (get_weather_forecast host_odd_weather_body "Tokyo")
     = HttpGet (weather_url host_odd_weather_body "Tokyo") :: log
     /\ (log = [] \/ exists line, log = [Print line]))
  /\ get_weather_forecast host_url_refused "Tokyo"
     = ([], Raise (InvalidURL "Invalid non-printable ASCII character in URL")).
Proof.
  split.
  - apply (weather_makes_at_most_one_request host_odd_weather_body "Tokyo").
    vm_compute. discriminate.
  - apply (weather_makes_at_most_one_request host_url_refused "Tokyo").
    vm_compute. discriminate.
Defined.

(* ================================================================== *)
(** ** Further properties of the itinerary generator *)
(* ================================================================== *)

Lemma gemini_key_test (h : host) :
  gemini_configured h ->
  String.eqb (GEMINI_API_KEY h) "YOUR_GEMINI_API_KEY" = false.
Proof. intros C. now apply String.eqb_neq. Qed.

(** X5.  With the credential set, [generate_itinerary] calls the generation
    service exactly once and returns an itinerary.  Either nothing is
    printed and the itinerary is the validated array of the cleaned text,
    or one line "Error calling Gemini API: ..." is printed and the
    itinerary is the fallback: a fallback is always logged, and a logged
    error always means the fallback. *)
Theorem generate_itinerary_calls_once (h : host) (p : string) :
  gemini_configured h ->
  exists log items,
    generate_itinerary h p = (Generate (itinerary_request h p) :: log, Ok items)
    /\ ((log = []
         /\ exists text r,
              generate_content h (itinerary_request h p) = Generated text
              /\ ItineraryResponse_model_validate_json (clean_response text) = Ok r
              /\ items = ir_itinerary r)
        \/ (exists line,
              log = [Print line]
              /\ prefix "Error calling Gemini API: " line = true
              /\ generation_rejected h p
              /\ items = FALLBACK_ITINERARY)).
Proof.
  intros C. unfold generate_itinerary, generation_rejected.
  rewrite (gemini_key_test h C).
  unfold generate_content_async.
  destruct (generate_content h (itinerary_request h p)) as [text|e].
  - destruct (ItineraryResponse_model_validate_json (clean_response text)) as [r|e] eqn:V.
    + exists [], (ir_itinerary r). split.
      * unfold try_except, bind, emit, ret, lift. simpl. rewrite V. reflexivity.
      * left. split; [reflexivity|]. exists text, r. auto.
    + eexists. exists FALLBACK_ITINERARY. split.
      * unfold try_except, bind, emit, ret, lift, print. simpl. rewrite V. reflexivity.
      * right. eexists. split; [reflexivity|].
        split; [apply (prefix_app "Error calling Gemini API: ")|].
        split; [|reflexivity]. intros r. congruence.
  - eexists. exists FALLBACK_ITINERARY. split.
    + reflexivity.
    + right. eexists. split; [reflexivity|].
      split; [apply (prefix_app "Error calling Gemini API: ")|].
      split; [exact I | reflexivity].
Qed.

Lemma generate_itinerary_calls_once_witness :
  exists log items,
    generate_itinerary host_all_down "Plan a 1-day trip in Tokyo"
    = (Generate (itinerary_request host_all_down "Plan a 1-day trip in Tokyo") :: log,
       Ok items).
Proof.
  destruct (generate_itinerary_calls_once host_all_down "Plan a 1-day trip in Tokyo")
    as (log & items & E & _).
  - vm_compute. discriminate.
  - exists log, items. exact E.
Defined.

(** *** Unwrapping a fence *)

Lemma lstrip_tick (s : string) : lstrip (String "`" s) = String "`" s.
Proof. destruct s as [|c2 [|c3 s]]; reflexivity. Qed.

Lemma lstrip_rev_tick (s : string) : lstrip_rev (String "`" s) = String "`" s.
Proof.
  destruct s as [|c2 [|c3 s]]; try reflexivity.
  - cbn [lstrip_rev]. change (is_space1 "`") with false. cbv iota.
    replace (is_space2 c2 "`") with false; [reflexivity|].
    unfold is_space2. change (code "`") with 96%N. cbn.
    now rewrite andb_false_r.
  - cbn [lstrip_rev]. change (is_space1 "`") with false. cbv iota.
    replace (is_space2 c2 "`") with false.
    + replace (is_space3 c3 c2 "`") with false; [reflexivity|].
      unfold is_space3. change (code "`") with 96%N. cbn.
      now rewrite !andb_false_r.
    + unfold is_space2. change (code "`") with 96%N. cbn.
      now rewrite andb_false_r.
Qed.

Lemma strip_ticks (s : string) :
  strip (String "`" (s ++ "`")) = String "`" (s ++ "`").
Proof.
  unfold strip, rstrip. rewrite lstrip_tick.
  change (String "`" (s ++ "`")) with (String "`" s ++ "`").
  rewrite rev_app. change (rev "`") with "`". cbn [append].
  rewrite lstrip_rev_tick.
  change (String "`" (rev (String "`" s))) with (rev "`" ++ rev (String "`" s)).
  rewrite <- rev_app, rev_involutive. reflexivity.
Qed.

Lemma contains_cons (sub : string) (c : ascii) (s : string) :
  contains sub (String c s) = (prefix sub (String c s) || contains sub s)%bool.
Proof. reflexivity. Qed.

Lemma replace_from_cons (old new : string) (c : ascii) (s : string) :
  replace_from old new 0 (String c s)
  = if prefix old (String c s)
    then new ++ replace_from old new (String.length old - 1) s
    else String c (replace_from old new 0 s).
Proof. reflexivity. Qed.

(** The opening fence is not found further on. *)
Lemma json_fence_absent (x : string) :
  contains FENCE x = false -> contains "```json" (x ++ "```") = false.
Proof.
  unfold FENCE. induction x as [|c r IH]; [reflexivity|].
  rewrite contains_cons. intros H. apply orb_false_elim in H as [P H].
  cbn [append]. rewrite contains_cons, (IH H), orb_false_r.
  destruct r as [|d [|e r']]; cbn [append].
  - rewrite !prefix_cons. cbn. now rewrite !andb_false_r.
  - rewrite !prefix_cons. cbn. now rewrite !andb_false_r.
  - rewrite !prefix_cons in P |- *. rewrite prefix_nil, andb_true_r in P.
    destruct (Ascii.eqb "`" c), (Ascii.eqb "`" d), (Ascii.eqb "`" e);
      try reflexivity; discriminate P.
Qed.

(** Removing the closing fence gives back what stood before it. *)
Lemma closing_fence_removed (x : string) :
  contains FENCE x = false -> replace_from FENCE "" 0 (x ++ "```") = x.
Proof.
  unfold FENCE. induction x as [|c r IH]; [reflexivity|].
  rewrite contains_cons. intros H. apply orb_false_elim in H as [P H].
  cbn [append]. rewrite replace_from_cons, (IH H).
  destruct (prefix "```" (String c (r ++ "```"))) eqn:Q; [|reflexivity].
  destruct r as [|d [|e r']]; cbn [append] in Q.
  - rewrite !prefix_cons in Q. apply andb_prop in Q as [Q _].
    apply Ascii.eqb_eq in Q as <-. reflexivity.
  - rewrite !prefix_cons in Q. apply andb_prop in Q as [Q1 Q].
    apply andb_prop in Q as [Q2 _].
    apply Ascii.eqb_eq in Q1 as <-. apply Ascii.eqb_eq in Q2 as <-. reflexivity.
  - rewrite !prefix_cons in P, Q. rewrite prefix_nil in P, Q. congruence.
Qed.

Lemma replace_from_skip (old new a s : string) :
  replace_from old new (String.length a) (a ++ s) = replace_from old new 0 s.
Proof. induction a as [|c a IH]; [reflexivity | exact IH]. Qed.

(** An occurrence at the head is replaced, and the scan goes on after it. *)
Lemma replace_from_head (c : ascii) (old new s : string) :
  replace_from (String c old) new 0 (String c old ++ s)
  = new ++ replace_from (String c old) new 0 s.
Proof.
  cbn [append]. rewrite replace_from_cons.
  change (String c (old ++ s)) with (String c old ++ s).
  rewrite prefix_app. cbn [String.length]. rewrite Nat.sub_1_r. cbn [Nat.pred].
  now rewrite replace_from_skip.
Qed.

Lemma clean_response_fenced (x : string) :
  contains FENCE x = false -> clean_response ("```json" ++ x ++ "```") = x.
Proof.
  intros H. unfold clean_response.
  replace ("```json" ++ x ++ "```") with (String "`" (("``json" ++ x ++ "``") ++ "`")).
  2:{ cbn [append]. rewrite string_app_assoc. reflexivity. }
  rewrite strip_ticks.
  replace (String "`" (("``json" ++ x ++ "``") ++ "`")) with ("```json" ++ x ++ "```").
  2:{ cbn [append]. rewrite string_app_assoc. reflexivity. }
  assert (E : replace "```json" "" ("```json" ++ x ++ "```") = x ++ "```").
  { unfold replace. rewrite replace_from_head. cbn [append].
    apply replace_from_absent. now apply json_fence_absent. }
  rewrite E. now apply closing_fence_removed.
Qed.

(** X6.  A text made of a json fence, an inside without fences, and a
    closing fence is validated as its inside: when the inside passes the
    itinerary schema, [generate_itinerary] returns its array, prints
    nothing and does not fall back. *)
Theorem fenced_itinerary_is_accepted
    (h : host) (p x : string) (r : ItineraryResponse) :
  gemini_configured h ->
  generate_content h (itinerary_request h p) = Generated ("```json" ++ x ++ "```") ->
  contains FENCE x = false ->
  ItineraryResponse_model_validate_json x = Ok r ->
  clean_response ("```json" ++ x ++ "```") = x
  /\ generate_itinerary h p = ([Generate (itinerary_request h p)], Ok (ir_itinerary r)).
Proof.
  intros C G F V. pose proof (clean_response_fenced x F) as E.
  split; [exact E|].
  unfold generate_itinerary. rewrite (gemini_key_test h C).
  unfold generate_content_async. rewrite G.
  unfold try_except, bind, emit, ret, lift. simpl fst. simpl snd.
  cbv iota beta. rewrite E, V. reflexivity.
Qed.

Lemma fenced_itinerary_is_accepted_witness :
  generate_itinerary host_fenced_itinerary "Plan a 1-day trip in Tokyo"
  = ([Generate (itinerary_request host_fenced_itinerary "Plan a 1-day trip in Tokyo")],
     Ok [ {| time := "9:00 AM"; activity := "Visit park";
             description := "Walk around and relax." |};
          {| time := "1:00 PM"; activity := "Ramen";
             description := "Lunch near the station." |} ]).
Proof.
  refine (proj2 (fenced_itinerary_is_accepted host_fenced_itinerary
                   "Plan a 1-day trip in Tokyo"
                   (NEWLINE ++ PLAIN_ITINERARY ++ NEWLINE)
                   {| ir_itinerary := _ |} _ _ _ _)).
  - vm_compute. discriminate.
  - vm_compute. reflexivity.
  - vm_compute. reflexivity.
  - vm_compute. reflexivity.
Defined.

(** *** What cleaning leaves *)

Lemma replace_fence_head (s : string) :
  replace_from FENCE "" 0 ("```" ++ s) = replace_from FENCE "" 0 s.
Proof. unfold FENCE. now rewrite replace_from_head. Qed.

Lemma prefix_fence_inv (s : string) :
  prefix FENCE s = true -> exists r, s = "```" ++ r.
Proof.
  unfold FENCE. destruct s as [|a [|b [|c r]]]; try discriminate.
  - rewrite !prefix_cons. cbn. rewrite andb_false_r. discriminate.
  - rewrite !prefix_cons. cbn. rewrite !andb_false_r. discriminate.
  - rewrite !prefix_cons. intros H.
    apply andb_prop in H as [A H]. apply andb_prop in H as [B H].
    apply andb_prop in H as [C _].
    apply Ascii.eqb_eq in A as <-. apply Ascii.eqb_eq in B as <-.
    apply Ascii.eqb_eq in C as <-. now exists r.
Qed.

Lemma replace_fence_leaves_none (n : nat) :
  forall s st,
    String.length s <= n -> fence_compatible st s ->
    fence_found (fence_run st (replace_from FENCE "" 0 s)) = false.
Proof.
  induction n as [|n IH]; intros s st L K.
  - destruct s; [|simpl in L; lia]. destruct st; try reflexivity. destruct K.
  - destruct s as [|c r]; [destruct st; try reflexivity; destruct K|].
    destruct (prefix FENCE (String c r)) eqn:P.
    + destruct (prefix_fence_inv _ P) as (r3 & E). rewrite E, replace_fence_head.
      assert (st = Fence0) as ->.
      { rewrite E in K. destruct st; try reflexivity; try discriminate K. destruct K. }
      apply IH; [|exact I].
      apply (f_equal String.length) in E. simpl in E, L. lia.
    + rewrite replace_from_cons, P. cbn [fence_run].
      apply IH; [simpl in L; lia|].
      unfold FENCE in P. rewrite prefix_cons in P.
      destruct st; cbn [fence_step fence_compatible] in *.
      * rewrite (Ascii.eqb_sym c "`").
        destruct (Ascii.eqb "`" c); [exact P | exact I].
      * rewrite prefix_cons in K. rewrite (Ascii.eqb_sym c "`").
        destruct (Ascii.eqb "`" c); [exact K | exact I].
      * rewrite prefix_cons, prefix_nil, andb_true_r in K.
        rewrite (Ascii.eqb_sym c "`"), K. exact I.
      * destruct K.
Qed.

(** X7.  Whatever the generation service returns, the text handed to the
    validator holds no fence of three backticks. *)
Theorem cleaned_text_has_no_fence (text : string) :
  contains FENCE (clean_response text) = false.
Proof.
  unfold clean_response.
  rewrite <- (proj1 (contains_fence_run _)).
  change (replace "```" "" ?t) with (replace_from FENCE "" 0 t).
  apply (replace_fence_leaves_none _ _ Fence0 (le_n _) I).
Qed.

Lemma contains_app_l (sub a s : string) :
  contains sub s = true -> contains sub (a ++ s) = true.
Proof.
  intros H. induction a as [|c a IH]; [exact H|].
  cbn [append]. rewrite contains_cons, IH. apply orb_true_r.
Qed.

Lemma prefix_app_r (sub s b : string) :
  prefix sub s = true -> prefix sub (s ++ b) = true.
Proof.
  revert s. induction sub as [|c sub IH]; intros s H; [apply prefix_nil|].
  destruct s as [|d s]; [discriminate H|].
  cbn [append]. rewrite prefix_cons in H |- *.
  apply andb_prop in H as [-> H]. now rewrite (IH _ H).
Qed.

Lemma contains_app_r (sub s b : string) :
  contains sub s = true -> contains sub (s ++ b) = true.
Proof.
  induction s as [|c s IH]; intros H.
  - cbn [contains] in H. rewrite orb_false_r in H.
    destruct sub; [|discriminate H].
    destruct b; reflexivity.
  - rewrite contains_cons in H. cbn [append]. rewrite contains_cons.
    apply orb_prop in H as [H | H].
    + change (String c (s ++ b)) with (String c s ++ b).
      now rewrite (prefix_app_r _ _ _ H).
    + rewrite (IH H). apply orb_true_r.
Qed.

Lemma lstrip_suffix (s : string) : exists a, s = a ++ lstrip s.
Proof.
  assert (G : forall n s, String.length s <= n -> exists a, s = a ++ lstrip s);
    [|exact (G _ s (le_n _))].
  clear s. induction n as [|n IHn]; intros s L;
    [destruct s; [now exists "" | simpl in L; lia]|].
  assert (IH : forall r, String.length r < String.length s -> exists a, r = a ++ lstrip r).
  { intros r Lr. apply IHn. lia. }
  clear IHn.
  destruct s as [|c1 r1]; [now exists ""|].
  cbn [lstrip].
  destruct (is_space1 c1).
  { destruct (IH r1) as (a & E); [simpl; lia|].
    exists (String c1 a). cbn [append]. now rewrite <- E. }
  destruct r1 as [|c2 r2]; [now exists ""|].
  destruct (is_space2 c1 c2).
  { destruct (IH r2) as (a & E); [simpl; lia|].
    exists (String c1 (String c2 a)). cbn [append]. now rewrite <- E. }
  destruct r2 as [|c3 r3]; [now exists ""|].
  destruct (is_space3 c1 c2 c3); [|now exists ""].
  destruct (IH r3) as (a & E); [simpl; lia|].
  exists (String c1 (String c2 (String c3 a))). cbn [append]. now rewrite <- E.
Qed.

Lemma lstrip_rev_suffix (s : string) : exists a, s = a ++ lstrip_rev s.
Proof.
  assert (G : forall n s, String.length s <= n -> exists a, s = a ++ lstrip_rev s);
    [|exact (G _ s (le_n _))].
  clear s. induction n as [|n IHn]; intros s L;
    [destruct s; [now exists "" | simpl in L; lia]|].
  assert (IH : forall r, String.length r < String.length s -> exists a, r = a ++ lstrip_rev r).
  { intros r Lr. apply IHn. lia. }
  clear IHn.
  destruct s as [|c1 r1]; [now exists ""|].
  cbn [lstrip_rev].
  destruct (is_space1 c1).
  { destruct (IH r1) as (a & E); [simpl; lia|].
    exists (String c1 a). cbn [append]. now rewrite <- E. }
  destruct r1 as [|c2 r2]; [now exists ""|].
  destruct (is_space2 c2 c1).
  { destruct (IH r2) as (a & E); [simpl; lia|].
    exists (String c1 (String c2 a)). cbn [append]. now rewrite <- E. }
  destruct r2 as [|c3 r3]; [now exists ""|].
  destruct (is_space3 c3 c2 c1); [|now exists ""].
  destruct (IH r3) as (a & E); [simpl; lia|].
  exists (String c1 (String c2 (String c3 a))). cbn [append]. now rewrite <- E.
Qed.

Lemma rstrip_prefix (s : string) : exists b, s = rstrip s ++ b.
Proof.
  unfold rstrip. destruct (lstrip_rev_suffix (rev s)) as (a & E).
  exists (rev a).
  rewrite <- rev_app, <- E. now rewrite rev_involutive.
Qed.

Lemma strip_inside (s : string) : exists a b, s = a ++ strip s ++ b.
Proof.
  unfold strip. destruct (lstrip_suffix s) as (a & E).
  destruct (rstrip_prefix (lstrip s)) as (b & F).
  exists a, b. now rewrite <- F.
Qed.

(** X8.  A text without fences is only stripped: it reaches the validator
    without the whitespace around it and otherwise unchanged, and what
    reaches the validator is a part of the text. *)
Theorem fence_free_text_is_only_stripped (text : string) :
  contains FENCE text = false ->
  clean_response text = strip text
  /\ exists a b, text = a ++ clean_response text ++ b.
Proof.
  intros H.
  destruct (strip_inside text) as (a & b & E).
  assert (F : contains FENCE (strip text) = false).
  { destruct (contains FENCE (strip text)) eqn:C; [|reflexivity].
    apply (contains_app_r _ _ b) in C. apply (contains_app_l _ a) in C.
    rewrite <- E in C. congruence. }
  assert (K : clean_response text = strip text).
  { unfold clean_response.
    rewrite (replace_absent "```json"); [|discriminate|].
    - apply replace_absent; [discriminate | exact F].
    - destruct (contains "```json" _) eqn:C; [|reflexivity].
      apply (contains_of_app "```" "json") in C. unfold FENCE in F. congruence. }
  split; [exact K|]. exists a, b. now rewrite K.
Qed.

Lemma fence_free_text_is_only_stripped_witness :
  clean_response (NEWLINE ++ PLAIN_ITINERARY ++ NEWLINE) = PLAIN_ITINERARY.
Proof.
  rewrite (proj1 (fence_free_text_is_only_stripped (NEWLINE ++ PLAIN_ITINERARY ++ NEWLINE)
                    ltac:(vm_compute; reflexivity))).
  vm_compute. reflexivity.
Defined.

(* ================================================================== *)
(** ** Further properties of the two operations *)
(* ================================================================== *)

(** The request sent to the judge lists the five criteria of the rubric,
    whatever the trip and the plan. *)
Lemma rubric_is_in_the_evaluation_prompt
    (h : host) (request : TripRequest) (response : TripResponse) (name : string) :
  In name RUBRIC ->
  contains name (contents (judge_request h request response)) = true.
Proof.
  intros H. cbn [contents judge_request]. unfold evaluation_prompt.
  do 8 apply contains_app_l.
  unfold RUBRIC in H. cbn [In] in H.
  repeat (destruct H as [<- | H]; [vm_compute; reflexivity|]).
  destruct H.
Qed.

(** X11.  [evaluate_plan] lets nothing out but an [HTTPException] of status
    500; it calls the generation service at most once, with the judge's
    request, and not at all without the credential; it never fetches a URL
    and never prints. *)
Theorem evaluate_plan_surface
    (h : host) (request : TripRequest) (response : TripResponse) :
  (forall e, outcome (evaluate_plan h request response) = Raise e ->
             exists detail, e = HTTPException 500 detail)
  /\ (GEMINI_API_KEY h = "YOUR_GEMINI_API_KEY" ->
      trace (evaluate_plan h request response) = [])
  /\ (gemini_configured h ->
      trace (evaluate_plan h request response)
      = [Generate (judge_request h request response)]).
Proof.
  destruct (string_dec (GEMINI_API_KEY h) "YOUR_GEMINI_API_KEY") as [U|C].
  - rewrite (evaluate_plan_unconfigured h request response U).
    split; [|split].
    + intros e E. injection E as <-. eauto.
    + reflexivity.
    + intros C. contradiction.
  - rewrite (evaluate_plan_configured h request response C).
    split; [|split].
    + cbn [outcome snd].
      destruct (generate_content h _) as [text|e'].
      * destruct (EvaluationResponse_model_validate_json text) as [r|e0];
          [intros e E; discriminate E|].
        intros e E. injection E as <-. eauto.
      * intros e E. injection E as <-. eauto.
    + intros U. contradiction.
    + reflexivity.
Qed.

Lemma evaluate_plan_surface_witness :
  (exists detail,
     outcome (evaluate_plan host_judge_prose TOKYO_REQUEST SAMPLE_RESPONSE)
     = Raise (HTTPException 500 detail))
  /\ trace (evaluate_plan host_no_credentials TOKYO_REQUEST SAMPLE_RESPONSE) = []
  /\ trace (evaluate_plan host_judge_prose TOKYO_REQUEST SAMPLE_RESPONSE)
     = [Generate (judge_request host_judge_prose TOKYO_REQUEST SAMPLE_RESPONSE)].
Proof.
  split; [|split].
  - destruct (outcome (evaluate_plan host_judge_prose TOKYO_REQUEST SAMPLE_RESPONSE))
      as [r|e] eqn:E; [vm_compute in E; discriminate E|].
    destruct (proj1 (evaluate_plan_surface host_judge_prose TOKYO_REQUEST SAMPLE_RESPONSE)
                e E) as (detail & ->).
    now exists detail.
  - apply (proj1 (proj2 (evaluate_plan_surface host_no_credentials TOKYO_REQUEST
                           SAMPLE_RESPONSE))).
    reflexivity.
  - apply (proj2 (proj2 (evaluate_plan_surface host_judge_prose TOKYO_REQUEST
                           SAMPLE_RESPONSE))).
    vm_compute. discriminate.
Defined.

Lemma outcome_bind_raise_first {A B} (m : M A) (k : A -> M B) (e : exn) :
  outcome m = Raise e -> outcome (bind m k) = Raise e.
Proof. destruct m as [t [a|e']]; simpl; [discriminate | now intros [= ->]]. Qed.

(** X12.  [plan_trip] fails in exactly two ways: without the generation
    credential, with the "not configured" [HTTPException]; and with the
    credential, when the weather lookup raises, with that very exception
    (the itinerary already generated is dropped). *)
Theorem plan_trip_fails_exactly_when (h : host) (request : TripRequest) (e : exn) :
  outcome (plan_trip h request) = Raise e
  <-> (GEMINI_API_KEY h = "YOUR_GEMINI_API_KEY"
       /\ e = HTTPException 500 "Gemini API key not configured.")
      \/ (gemini_configured h
          /\ outcome (get_weather_forecast h default_city) = Raise e).
Proof.
  destruct (string_dec (GEMINI_API_KEY h) "YOUR_GEMINI_API_KEY") as [U|C].
  - unfold plan_trip. rewrite (generate_itinerary_unconfigured h _ U). cbn.
    split.
    + intros E. injection E as <-. left. auto.
    + intros [(_ & ->) | (C & _)]; [reflexivity | contradiction].
  - pose proof (generate_itinerary_configured h (prompt request) C) as G.
    unfold plan_trip. rewrite (outcome_bind_step _ _ _ G).
    split.
    + intros H. right. split; [exact C|].
      apply outcome_bind_raise in H as [H | (w & _ & H)]; [exact H | discriminate H].
    + intros [(U & _) | (_ & H)]; [contradiction|].
      now apply outcome_bind_raise_first.
Qed.

Lemma plan_trip_fails_exactly_when_witness :
  outcome (plan_trip host_odd_weather_body TOKYO_REQUEST) = Raise (KeyError "'weather'")
  /\ outcome (plan_trip host_no_credentials TOKYO_REQUEST)
     = Raise (HTTPException 500 "Gemini API key not configured.").
Proof.
  split.
  - apply (proj2 (plan_trip_fails_exactly_when host_odd_weather_body TOKYO_REQUEST _)).
    right. split; [vm_compute; discriminate | vm_compute; reflexivity].
  - apply (proj2 (plan_trip_fails_exactly_when host_no_credentials TOKYO_REQUEST _)).
    left. split; reflexivity.
Defined.

(** What a generation with the credential set leaves on record: its one
    call, then at most one printed line. *)
Lemma generate_itinerary_trace (h : host) (p : string) :
  gemini_configured h ->
  exists log,
    trace (generate_itinerary h p) = Generate (itinerary_request h p) :: log
    /\ (log = [] \/ exists line, log = [Print line])
    /\ exists items, outcome (generate_itinerary h p) = Ok items.
Proof.
  intros C. unfold generate_itinerary. rewrite (gemini_key_test h C).
  unfold generate_content_async.
  destruct (generate_content h (itinerary_request h p)) as [text|e].
  - destruct (ItineraryResponse_model_validate_json (clean_response text)) as [r|e] eqn:V.
    + exists []. unfold try_except, bind, emit, ret, lift. simpl. rewrite V. simpl.
      split; [reflexivity|]. split; [now left | eauto].
    + eexists. unfold try_except, bind, emit, ret, lift, print. simpl. rewrite V. simpl.
      split; [reflexivity|]. split; [right; eauto | eauto].
  - eexists. simpl. split; [reflexivity|]. split; [right; eauto | eauto].
Qed.

(** X13.  With the generation credential set, [plan_trip] calls the
    generation service exactly once, first of all, with the request built
    from the prompt.  It fetches no URL without the weather credential or
    when the client refuses the URL of the lookup, and otherwise exactly
    one, the weather of "Tokyo". *)
Theorem plan_trip_call_discipline (h : host) (request : TripRequest) :
  gemini_configured h ->
  hd_error (trace (plan_trip h request))
  = Some (Generate (itinerary_request h (prompt request)))
  /\ filter is_Generate (trace (plan_trip h request))
     = [Generate (itinerary_request h (prompt request))]
  /\ filter is_HttpGet (trace (plan_trip h request))
     = if String.eqb (WEATHER_API_KEY h) "YOUR_WEATHER_API_KEY"
       then []
       else match http_get h (weather_url h "Tokyo") with
            | Refused _ => []
            | _ => [HttpGet (weather_url h "Tokyo")]
            end.
Proof.
  intros C.
  destruct (generate_itinerary_trace h (prompt request) C)
    as (glog & G & GL & (items & GO)).
  assert (T : trace (plan_trip h request)
              = (Generate (itinerary_request h (prompt request)) :: glog
                 ++ trace (get_weather_forecast h default_city))%list).
  { unfold plan_trip. rewrite trace_bind, G, GO.
    rewrite trace_bind.
    destruct (outcome (get_weather_forecast h default_city));
      cbn [trace ret fst]; now rewrite ?app_nil_r. }
  rewrite T. clear T.
  assert (PG : filter is_Generate glog = [] /\ filter is_HttpGet glog = []).
  { destruct GL as [-> | (line & ->)]; split; reflexivity. }
  destruct PG as (PG & PH).
  cbn [hd_error filter is_Generate is_HttpGet]. rewrite !filter_app, PG, PH.
  cbn [app]. unfold default_city.
  destruct (String.eqb (WEATHER_API_KEY h) "YOUR_WEATHER_API_KEY") eqn:W.
  - apply String.eqb_eq in W.
    rewrite (get_weather_forecast_unconfigured h "Tokyo" W). auto.
  - destruct (get_weather_forecast_trace h "Tokyo" W) as (wlog & -> & WL).
    assert (PW : filter is_Generate wlog = [] /\ filter is_HttpGet wlog = []).
    { destruct WL as [-> | (line & -> & _)]; split; reflexivity. }
    destruct PW as (PW1 & PW2).
    rewrite !filter_app, PW1, PW2, !app_nil_r.
    destruct (http_get h (weather_url h "Tokyo")); auto.
Qed.

Lemma plan_trip_call_discipline_witness :
  (filter is_Generate (trace (plan_trip host_sunny TOKYO_REQUEST))
   = [Generate (itinerary_request host_sunny "Plan a 1-day trip in Tokyo")]
   /\ filter is_HttpGet (trace (plan_trip host_sunny TOKYO_REQUEST))
      = [HttpGet (weather_url host_sunny "Tokyo")])
  /\ filter is_HttpGet (trace (plan_trip host_url_refused TOKYO_REQUEST)) = [].
Proof.
  split.
  - destruct (plan_trip_call_discipline host_sunny TOKYO_REQUEST) as (_ & G & H).
    + vm_compute. discriminate.
    + split; [exact G | exact H].
  - destruct (plan_trip_call_discipline host_url_refused TOKYO_REQUEST) as (_ & _ & H).
    + vm_compute. discriminate.
    + exact H.
Defined.

Lemma itinerary_depends_on_generation_only (h1 h2 : host) (p : string) :
  environ h1 "GEMINI_API_KEY" = environ h2 "GEMINI_API_KEY" ->
  (forall request, generate_content h1 request = generate_content h2 request) ->
  generate_itinerary h1 p = generate_itinerary h2 p.
Proof.
  intros K G.
  assert (E : GEMINI_API_KEY h1 = GEMINI_API_KEY h2).
  { unfold GEMINI_API_KEY, getenv. now rewrite K. }
  unfold generate_itinerary, generate_content_async, itinerary_request.
  rewrite E, G. reflexivity.
Qed.

(** X14.  The itinerary of a planned trip does not depend on the weather
    side: two hosts with the same generation credential and the same
    generation service, whatever their weather credential and provider,
    make the same generation call and give the same itinerary. *)
Theorem itinerary_independent_of_weather
    (h1 h2 : host) (request : TripRequest) (r1 r2 : TripResponse) :
  environ h1 "GEMINI_API_KEY" = environ h2 "GEMINI_API_KEY" ->
  (forall q, generate_content h1 q = generate_content h2 q) ->
  outcome (plan_trip h1 request) = Ok r1 ->
  outcome (plan_trip h2 request) = Ok r2 ->
  itinerary r1 = itinerary r2
  /\ generate_itinerary h1 (prompt request) = generate_itinerary h2 (prompt request).
Proof.
  intros K G H1 H2.
  pose proof (itinerary_depends_on_generation_only h1 h2 (prompt request) K G) as E.
  apply plan_trip_inv in H1 as (i1 & w1 & Hi1 & _ & ->).
  apply plan_trip_inv in H2 as (i2 & w2 & Hi2 & _ & ->).
  split; [|exact E]. cbn [itinerary]. rewrite E in Hi1. congruence.
Qed.

Lemma itinerary_independent_of_weather_witness :
  exists r1 r2,
    outcome (plan_trip host_all_down TOKYO_REQUEST) = Ok r1
    /\ outcome (plan_trip host_sunny_generation_down TOKYO_REQUEST) = Ok r2
    /\ weather r1 <> weather r2
    /\ itinerary r1 = itinerary r2.
Proof.
  eexists. eexists.
  split; [vm_compute; reflexivity|].
  split; [vm_compute; reflexivity|].
  split; [discriminate|].
  apply (itinerary_independent_of_weather host_all_down host_sunny_generation_down
           TOKYO_REQUEST _ _ eq_refl (fun _ => eq_refl));
    vm_compute; reflexivity.
Defined.
